(** * Linear time-varying MPC path tracker (Control/linear_mpc.py)

    A shallow embedding of the controller of [Control/linear_mpc.py] and the
    properties of its components: the kinematic update of [Node], the
    nearest-index search of [PATH], the speed profile, the horizon reference
    extractor, the predictor, the QP set-up and the outer successive
    linearisation loop.

    Conventions of the embedding.
    - Python floats are modelled as real numbers [R]: every statement about
      numbers below is a statement about the exact arithmetic the code
      approximates; rounding, infinities and NaN are outside the model.
    - Python integers are [Z]; list indices follow Python (a negative index
      counts from the end, an index out of range raises [IndexError]).
    - A Python exception is a value [Raise e] of [result]; code that mutates
      an object threads that object through the state monad [M].
    - Two-dimensional numpy arrays that are mutated in place live in a heap
      of arrays and are passed by location. *)

From Stdlib Require Import Reals Lra Lia ZArith List String Sorted.
From stdpp Require Import base gmap list.
Import ListNotations.
Open Scope R_scope.

(** ** Python values, exceptions and the state monad *)

Inductive exn : Set := IndexError | TypeError | ValueError | ZeroDivisionError.

Inductive result (A : Type) : Type :=
| Ok (a : A)
| Raise (e : exn).
Arguments Ok {A} a.
Arguments Raise {A} e.

Definition bindR {A B : Type} (r : result A) (k : A -> result B) : result B :=
  match r with
  | Ok a => k a
  | Raise e => Raise e
  end.

(** A computation over a mutable state [S] that may raise. *)
Definition M (S A : Type) : Type := S -> result A * S.

Definition ret {S A : Type} (a : A) : M S A := fun s => (Ok a, s).

Definition raise {S A : Type} (e : exn) : M S A := fun s => (Raise e, s).

Definition bind {S A B : Type} (c : M S A) (k : A -> M S B) : M S B :=
  fun s =>
    match c s with
    | (Ok a, s') => k a s'
    | (Raise e, s') => (Raise e, s')
    end.

Definition lift {S A : Type} (r : result A) : M S A := fun s => (r, s).

Definition get {S : Type} : M S S := fun s => (Ok s, s).

Definition put {S : Type} (s : S) : M S unit := fun _ => (Ok tt, s).

Declare Scope py_scope.
Delimit Scope py_scope with py.
Notation "'let*' x ':=' c 'in' k" := (bind c (fun x => k))
  (at level 10, x pattern, c at level 100, k at level 200) : py_scope.
Notation "'let?' x ':=' c 'in' k" := (bindR c (fun x => k))
  (at level 10, x pattern, c at level 100, k at level 200) : py_scope.
Open Scope py_scope.

(** [for x in items: body], the loop variables being the state [st]. *)
Fixpoint for_ {S St I : Type} (items : list I) (body : I -> St -> M S St)
  (st : St) : M S St :=
  match items with
  | [] => ret st
  | i :: rest => let* st' := body i st in for_ rest body st'
  end.

Fixpoint forR {St I : Type} (items : list I) (body : I -> St -> result St)
  (st : St) : result St :=
  match items with
  | [] => Ok st
  | i :: rest => let? st' := body i st in forR rest body st'
  end.

(** [for ... : ... break ... else: ...]: the body says whether it broke. *)
Inductive ctl : Set := Break | Continue.

Fixpoint for_break {S St I : Type} (items : list I)
  (body : I -> St -> M S (ctl * St)) (st : St) : M S (ctl * St) :=
  match items with
  | [] => ret (Continue, st)
  | i :: rest =>
      let* r := body i st in
      match r with
      | (Break, st') => ret (Break, st')
      | (Continue, st') => for_break rest body st'
      end
  end.

(** [range(n)] and [range(a, b)]. *)
Definition py_range (n : Z) : list Z := map Z.of_nat (seq 0 (Z.to_nat n)).

Definition py_range2 (a b : Z) : list Z :=
  map (fun k => (a + Z.of_nat k)%Z) (seq 0 (Z.to_nat (b - a))).

Definition py_len {A : Type} (l : list A) : Z := Z.of_nat (length l).

(** [l[i]] for a list or a one-dimensional array. *)
Definition py_index {A : Type} (l : list A) (i : Z) : result A :=
  let j := if (i <? 0)%Z then (i + py_len l)%Z else i in
  if (j <? 0)%Z then Raise IndexError
  else match l !! Z.to_nat j with
       | Some a => Ok a
       | None => Raise IndexError
       end.

(** [l[i] = a]. *)
Definition py_setitem {A : Type} (l : list A) (i : Z) (a : A) : result (list A) :=
  let j := if (i <? 0)%Z then (i + py_len l)%Z else i in
  if (j <? 0)%Z then Raise IndexError
  else if (j <? py_len l)%Z then Ok (<[Z.to_nat j := a]> l)
  else Raise IndexError.

(** [l[a:b]]: both bounds are normalised as Python does and never raise. *)
Definition py_slice_bound (len i : Z) : Z :=
  if (i <? 0)%Z then Z.max 0 (i + len) else Z.min i len.

Definition py_slice {A : Type} (l : list A) (a b : Z) : list A :=
  let a' := py_slice_bound (py_len l) a in
  let b' := py_slice_bound (py_len l) b in
  take (Z.to_nat (b' - a')) (drop (Z.to_nat a') l).

(** [round(x)] on a float: to the nearest integer, ties to the even one. *)
Definition py_round (x : R) : Z :=
  let f := Zfloor x in
  let d := x - IZR f in
  if Rlt_dec d (1 / 2) then f
  else if Rlt_dec (1 / 2) d then (f + 1)%Z
  else if Z.even f then f else (f + 1)%Z.

(** [math.atan2(y, x)] on reals (the quadrant-aware arctangent of y / x). *)
Definition atan2 (y x : R) : R :=
  if Rlt_dec 0 x then atan (y / x)
  else if Rlt_dec x 0 then
         if Rle_dec 0 y then atan (y / x) + PI else atan (y / x) - PI
  else if Rlt_dec 0 y then PI / 2
  else if Rlt_dec y 0 then - (PI / 2)
  else 0.

(** [sum(l)] of a one-dimensional array. *)
Definition py_sum (l : list R) : R := fold_left Rplus l 0.

(** ** numpy arrays *)

Abbreviation vector := (list R) (only parsing).
Abbreviation ndarray := (list (list R)) (only parsing).

(** Element-wise binary operation with numpy's broadcasting of two
    one-dimensional operands: equal lengths, or one operand of length 1. *)
Definition np_broadcast2 (f : R -> R -> R) (a b : vector) : result vector :=
  if (length a =? length b)%nat then Ok (zip_with f a b)
  else match a, b with
       | [x], _ => Ok (map (f x) b)
       | _, [y] => Ok (map (fun x => f x y) a)
       | _, _ => Raise ValueError
       end.

Definition hypot (x y : R) : R := sqrt (x * x + y * y).

Definition np_hypot (dx dy : vector) : result vector := np_broadcast2 hypot dx dy.

(** [np.argmin]: the index of the first occurrence of the minimum. *)
Fixpoint argmin_from (best : R) (besti i : nat) (l : vector) : nat :=
  match l with
  | [] => besti
  | d :: l' =>
      if Rlt_dec d best then argmin_from d i (S i) l'
      else argmin_from best besti (S i) l'
  end.

Definition np_argmin (l : vector) : result Z :=
  match l with
  | [] => Raise ValueError
  | d :: l' => Ok (Z.of_nat (argmin_from d 0 1 l'))
  end.

Definition np_zeros (rows cols : Z) : ndarray :=
  replicate (Z.to_nat rows) (replicate (Z.to_nat cols) 0).

(** [m[i, j]] and [m[i, j] = a]. *)
Definition np_get2 (m : ndarray) (i j : Z) : result R :=
  let? row := py_index m i in py_index row j.

Definition np_set2 (m : ndarray) (i j : Z) (a : R) : result ndarray :=
  let? row := py_index m i in
  let? row' := py_setitem row j a in
  py_setitem m i row'.

(** [m[:, j]]: column [j]. *)
Definition np_col (m : ndarray) (j : Z) : result vector :=
  forR m (fun row acc => let? a := py_index row j in Ok (acc ++ [a])) [].

(** [m * c] for a scalar [c]: a new array. *)
Definition np_scale (m : ndarray) (c : R) : ndarray :=
  map (map (fun a => a * c)) m.

(** ** Configuration: class P *)

Definition deg2rad (d : R) : R := d * (PI / 180).

Module P.
Definition NX : Z := 4.
Definition NU : Z := 2.
Definition T : Z := 6.
Definition MAX_ITER : Z := 5.
Definition TARGET_SPEED : R := 10.0 / 3.6.
Definition N_IND_SEARCH : Z := 10.
Definition dt : R := 0.2.
Definition DU_TH : R := 0.1.
Definition WB : R := 2.5.
Definition MAX_STEER : R := deg2rad 45.0.
Definition GOAL_DIS : R := 1.5.
Definition STOP_SPEED : R := 0.5 / 3.6.
Definition MAX_TIME : R := 500.0.
End P.

(** ** class Node *)

Module Node.
Record t : Type := mk { x : R; y : R; yaw : R; v : R; direct : R }.

(** [Node(x=..., y=..., yaw=..., v=...)] with the default gear 1.0. *)
Definition init (x0 y0 yaw0 v0 : R) : t := mk x0 y0 yaw0 v0 1.0.

Definition limit_input (delta : R) : R :=
  if Rge_dec delta P.MAX_STEER then P.MAX_STEER
  else if Rle_dec delta (- P.MAX_STEER) then - P.MAX_STEER
  else delta.

Definition update (self : t) (a delta direct0 : R) : t :=
  let delta := limit_input delta in
  let x1 := x self + v self * cos (yaw self) * P.dt in
  let y1 := y self + v self * sin (yaw self) * P.dt in
  let yaw1 := yaw self + v self / P.WB * tan delta * P.dt in
  let v1 := v self + direct0 * a * P.dt in
  mk x1 y1 yaw1 v1 direct0.
End Node.

Definition pi_2_pi (angle : R) : R :=
  if Rgt_dec angle PI then angle - 2.0 * PI
  else if Rlt_dec angle (- PI) then angle + 2.0 * PI
  else angle.

(** ** Linearizer *)

Definition calc_linear_discrete_model (v phi delta : R)
  : ndarray * ndarray * vector :=
  let A := [ [1.0; 0.0; P.dt * cos phi; - P.dt * v * sin phi];
             [0.0; 1.0; P.dt * sin phi; P.dt * v * cos phi];
             [0.0; 0.0; 1.0; 0.0];
             [0.0; 0.0; P.dt * tan delta / P.WB; 1.0] ] in
  let B := [ [0.0; 0.0];
             [0.0; 0.0];
             [P.dt; 0.0];
             [0.0; P.dt * v / (P.WB * cos delta ^ 2)] ] in
  let C := [ P.dt * v * sin phi * phi;
             - P.dt * v * cos phi * phi;
             0.0;
             - P.dt * v * delta / (P.WB * cos delta ^ 2) ] in
  (A, B, C).

(** The affine model [A z + B u + C] of the QP's dynamics constraint. *)
Definition dot (r z : vector) : R := py_sum (zip_with Rmult r z).

Definition matvec (m : ndarray) (z : vector) : vector := map (fun r => dot r z) m.

Definition affine (model : ndarray * ndarray * vector) (z u : vector) : vector :=
  let '(A, B, C) := model in
  zip_with Rplus (zip_with Rplus (matvec A z) (matvec B u)) C.

(** ** class PATH *)

Module PATH.
Record t : Type :=
  mk { cx : vector; cy : vector; cyaw : vector; ck : vector;
       length : Z; ind_old : Z }.

Definition init (cx0 cy0 cyaw0 ck0 : vector) : t :=
  mk cx0 cy0 cyaw0 ck0 (py_len cx0) 0.

Definition set_ind_old (self : t) (i : Z) : t :=
  mk (cx self) (cy self) (cyaw self) (ck self) (length self) i.

Definition nearest_index (node : Node.t) : M t (Z * R) :=
  let* self := get in
  let lo := ind_old self in
  let hi := (ind_old self + P.N_IND_SEARCH)%Z in
  let dx := map (fun x => Node.x node - x) (py_slice (cx self) lo hi) in
  let dy := map (fun y => Node.y node - y) (py_slice (cy self) lo hi) in
  let* dist := lift (np_hypot dx dy) in
  let* ind := lift (np_argmin dist) in
  let* dist_min := lift (py_index dist ind) in
  let ind := (ind + ind_old self)%Z in
  let* _ := put (set_ind_old self ind) in
  let* cxi := lift (py_index (cx self) ind) in
  let dxl := cxi - Node.x node in
  let* cyi := lift (py_index (cy self) ind) in
  let dyl := cyi - Node.y node in
  let* cyawi := lift (py_index (cyaw self) ind) in
  let angle := pi_2_pi (cyawi - atan2 dyl dxl) in
  let dist_min := if Rlt_dec angle 0.0 then dist_min * -1.0 else dist_min in
  ret (ind, dist_min).
End PATH.

(** ** SpeedProfile *)

Definition Rneqb (a b : R) : bool := if Req_dec_T a b then false else true.

Definition calc_speed_profile (cx cy cyaw : vector) (target_speed : R)
  : result vector :=
  let speed_profile := replicate (length cx) target_speed in
  let direction := 1.0 in
  let? (_, speed_profile) :=
    forR (py_range (py_len cx - 1))
      (fun i '(direction, speed_profile) =>
         let? cx1 := py_index cx (i + 1) in
         let? cx0 := py_index cx i in
         let dx := cx1 - cx0 in
         let? cy1 := py_index cy (i + 1) in
         let? cy0 := py_index cy i in
         let dy := cy1 - cy0 in
         let move_direction := atan2 dy dx in
         let? direction :=
           if Rneqb dx 0.0 && Rneqb dy 0.0 then
             let? cyawi := py_index cyaw i in
             let dangle := Rabs (pi_2_pi (move_direction - cyawi)) in
             if Rge_dec dangle (PI / 4.0) then Ok (- 1.0) else Ok 1.0
           else Ok direction in
         let? speed_profile :=
           if Rneqb direction 1.0
           then py_setitem speed_profile i (- target_speed)
           else py_setitem speed_profile i target_speed in
         Ok (direction, speed_profile))
      (direction, speed_profile) in
  let? speed_profile := py_setitem speed_profile (-1) 0.0 in
  Ok speed_profile.

(** ** HorizonReferenceExtractor *)

Definition py_div (a b : R) : result R :=
  if Req_dec_T b 0 then Raise ZeroDivisionError else Ok (a / b).

(** Python's floats are binary64: an arithmetic operation returns its exact
    result rounded to a binary64 number, and the literal 0.2 of [P.dt] is
    rounded too. In the look-ahead that rounding decides an integer, the
    offset round(travel / dl), so the function is given with the rounding
    [fl] of every float operation on the travel distance explicit (overflow
    is not modelled). [abs], [round] and [int] are exact on floats.

    The arrays [z_opt] and [d_opt] are created here, filled in and returned:
    they are local until the return, so they are threaded as values. *)
Definition calc_optimal_trajectory_in_T_step_fl (fl : R -> R)
  (node : Node.t) (sp : vector) (dl : R) : M PATH.t (ndarray * Z * ndarray) :=
  let z_opt := np_zeros P.NX (P.T + 1) in
  let d_opt := np_zeros 1 (P.T + 1) in
  let* ref_path := get in
  let length := PATH.length ref_path in
  let* (ind, _) := PATH.nearest_index node in
  let* z_opt := lift (let? c := py_index (PATH.cx ref_path) ind in
                      np_set2 z_opt 0 0 c) in
  let* z_opt := lift (let? c := py_index (PATH.cy ref_path) ind in
                      np_set2 z_opt 1 0 c) in
  let* z_opt := lift (let? c := py_index sp ind in np_set2 z_opt 2 0 c) in
  let* z_opt := lift (let? c := py_index (PATH.cyaw ref_path) ind in
                      np_set2 z_opt 3 0 c) in
  let* d_opt := lift (np_set2 d_opt 0 0 0.0) in
  let travel := 0.0 in
  let* (_, z_opt, d_opt) :=
    for_ (py_range (P.T + 1))
      (fun i '(travel, z_opt, d_opt) =>
         let travel := fl (travel + fl (Rabs (Node.v node) * fl P.dt)) in
         let* q := lift (py_div travel dl) in
         let dind := py_round (fl q) in
         let index := Z.min (ind + dind) (length - 1) in
         let* z_opt := lift (let? c := py_index (PATH.cx ref_path) index in
                             np_set2 z_opt 0 i c) in
         let* z_opt := lift (let? c := py_index (PATH.cy ref_path) index in
                             np_set2 z_opt 1 i c) in
         let* z_opt := lift (let? c := py_index sp index in
                             np_set2 z_opt 2 i c) in
         let* z_opt := lift (let? c := py_index (PATH.cyaw ref_path) index in
                             np_set2 z_opt 3 i c) in
         let* d_opt := lift (np_set2 d_opt 0 i 0.0) in
         ret (travel, z_opt, d_opt))
      (travel, z_opt, d_opt) in
  ret (z_opt, ind, d_opt).

(** The function in exact arithmetic, as the rest of the development reads
    floats: no operation rounds. *)
Definition calc_optimal_trajectory_in_T_step
  (node : Node.t) (sp : vector) (dl : R) : M PATH.t (ndarray * Z * ndarray) :=
  calc_optimal_trajectory_in_T_step_fl (fun x => x) node sp dl.

(** ** The QP handed to the external solver *)

(** Stage [t] of the horizon: the reference column [z_opt[:, t]] of the
    tracking cost (absent for t = 0) and the linear model of the dynamics
    constraint. The weights and bounds are the constants of [P]. *)
Record stage : Type :=
  mk_stage { st_ref : option vector; st_model : ndarray * ndarray * vector }.

Record QP : Type :=
  mk_QP { qp_stages : list stage; qp_terminal : vector; qp_init : vector }.

(** cvxpy's problem statuses. *)
Inductive status : Set :=
| OPTIMAL | OPTIMAL_INACCURATE
| INFEASIBLE | INFEASIBLE_INACCURATE
| UNBOUNDED | UNBOUNDED_INACCURATE
| INFEASIBLE_OR_UNBOUNDED | USER_LIMIT | SOLVER_ERROR.

Definition status_eqb (a b : status) : bool :=
  match a, b with
  | OPTIMAL, OPTIMAL | OPTIMAL_INACCURATE, OPTIMAL_INACCURATE
  | INFEASIBLE, INFEASIBLE | INFEASIBLE_INACCURATE, INFEASIBLE_INACCURATE
  | UNBOUNDED, UNBOUNDED | UNBOUNDED_INACCURATE, UNBOUNDED_INACCURATE
  | INFEASIBLE_OR_UNBOUNDED, INFEASIBLE_OR_UNBOUNDED
  | USER_LIMIT, USER_LIMIT | SOLVER_ERROR, SOLVER_ERROR => true
  | _, _ => false
  end.

(** What [prob.solve] leaves behind: the status and the values of the
    variables z (NX x (T+1)) and u (NU x T). *)
Record solver_output : Type :=
  mk_out { prob_status : status; z_value : ndarray; u_value : ndarray }.

(** The external solver (OSQP behind cvxpy), an opaque function of the QP. *)
Definition solver : Type := QP -> solver_output.

(** ** The world: heap of arrays, standard output, solver calls *)

Abbreviation loc := nat (only parsing).

Record world : Type :=
  mk_world { heap : gmap nat ndarray;
             stdout : list string;
             solved : list QP }.

(** Reading a location; a location that holds no array reads as the empty
    array (Python references never dangle, so this case does not arise). *)
Definition read (l : loc) : M world ndarray :=
  fun w => (Ok (default [] (heap w !! l)), w).

Definition store (l : loc) (m : ndarray) : M world unit :=
  fun w => (Ok tt, mk_world (<[l := m]> (heap w)) (stdout w) (solved w)).

Definition alloc (m : ndarray) : M world loc :=
  fun w =>
    let l := fresh (dom (heap w)) in
    (Ok l, mk_world (<[l := m]> (heap w)) (stdout w) (solved w)).

Definition write2 (l : loc) (i j : Z) (a : R) : M world unit :=
  let* m := read l in
  let* m' := lift (np_set2 m i j a) in
  store l m'.

Definition print (msg : string) : M world unit :=
  fun w => (Ok tt, mk_world (heap w) (stdout w ++ [msg]) (solved w)).

Definition call_solver (osqp : solver) (prob : QP) : M world solver_output :=
  fun w => (Ok (osqp prob), mk_world (heap w) (stdout w) (solved w ++ [prob])).

(** A value that is an array or [None]. *)
Definition iter_vec (a : option vector) : M world vector :=
  match a with
  | Some l => ret l
  | None => raise TypeError
  end.

Fixpoint zip3 {A B C : Type} (a : list A) (b : list B) (c : list C)
  : list (A * B * C) :=
  match a, b, c with
  | x :: a', y :: b', z :: c' => (x, y, z) :: zip3 a' b' c'
  | _, _, _ => []
  end.

(** ** Predictor *)

Definition predict_model (z0 : vector) (a delta : option vector) (z_opt : loc)
  : M world loc :=
  let* zo := read z_opt in
  let* z_bar := alloc (np_scale zo 0.0) in
  let* _ := for_ (py_range (py_len z0))
              (fun i _ => let* zi := lift (py_index z0 i) in
                          write2 z_bar i 0 zi) tt in
  let* x0 := lift (py_index z0 0) in
  let* y0 := lift (py_index z0 1) in
  let* v0 := lift (py_index z0 2) in
  let* yaw0 := lift (py_index z0 3) in
  let node := Node.init x0 y0 yaw0 v0 in
  let* a := iter_vec a in
  let* delta := iter_vec delta in
  let* _ := for_ (zip3 a delta (py_range2 1 (P.T + 1)))
              (fun '(ai, di, i) node =>
                 let node := Node.update node ai di 1.0 in
                 let* _ := write2 z_bar 0 i (Node.x node) in
                 let* _ := write2 z_bar 1 i (Node.y node) in
                 let* _ := write2 z_bar 2 i (Node.v node) in
                 let* _ := write2 z_bar 3 i (Node.yaw node) in
                 ret node) node in
  ret z_bar.

(** ** QPFormulator/Solver *)

Definition trajectories : Type :=
  option vector * option vector * option vector * option vector
  * option vector * option vector.

Definition solve_linear_mpc (osqp : solver) (z_opt z_bar : loc) (z0 : vector)
  (d_opt : loc) : M world trajectories :=
  let* zo := read z_opt in
  let* zb := read z_bar in
  let* d := read d_opt in
  let* stages :=
    for_ (py_range P.T)
      (fun t acc =>
         let* ref := if (t =? 0)%Z then ret None
                     else (let* c := lift (np_col zo t) in ret (Some c)) in
         let* v := lift (np_get2 zb 2 t) in
         let* phi := lift (np_get2 zb 3 t) in
         let* delta := lift (np_get2 d 0 t) in
         ret (acc ++ [mk_stage ref (calc_linear_discrete_model v phi delta)]))
      [] in
  let* term := lift (np_col zo P.T) in
  let* out := call_solver osqp (mk_QP stages term z0) in
  if status_eqb (prob_status out) OPTIMAL
     || status_eqb (prob_status out) OPTIMAL_INACCURATE
  then
    let* ox := lift (py_index (z_value out) 0) in
    let* oy := lift (py_index (z_value out) 1) in
    let* ov := lift (py_index (z_value out) 2) in
    let* oyaw := lift (py_index (z_value out) 3) in
    let* oa := lift (py_index (u_value out) 0) in
    let* odelta := lift (py_index (u_value out) 1) in
    ret (Some oa, Some odelta, Some ox, Some oy, Some oyaw, Some ov)
  else
    let* _ := print "Cannot solve linear mpc" in
    ret (None, None, None, None, None, None).

(** ** MPCIterationController *)

(** [oa - poa] with [oa] an array or [None] and [poa] a list or an array. *)
Definition np_sub (a : option vector) (b : vector) : result vector :=
  match a with
  | None => Raise TypeError
  | Some a => np_broadcast2 Rminus a b
  end.

(** The body of the [for] loop of [linear_mpc_control]; the loop variables
    are [oa, od, ox, oy, oyaw, ov], unbound ones being [None]. *)
Definition mpc_iteration (osqp : solver) (z_opt : loc) (z0 : vector)
  (d_opt : loc) (i : Z) (vars : trajectories) : M world (ctl * trajectories) :=
  let '(oa, od, _, _, _, _) := vars in
  let* z_bar := predict_model z0 oa od z_opt in
  let* poa := iter_vec oa in
  let* pod := iter_vec od in
  let* (oa, od, ox, oy, oyaw, ov) :=
    solve_linear_mpc osqp z_opt z_bar z0 d_opt in
  let* da := lift (np_sub oa poa) in
  let* dd := lift (np_sub od pod) in
  let du := py_sum (map Rabs da) + py_sum (map Rabs dd) in
  if Rle_dec du P.DU_TH
  then ret (Break, (oa, od, ox, oy, oyaw, ov))
  else ret (Continue, (oa, od, ox, oy, oyaw, ov)).

Definition linear_mpc_control (osqp : solver) (z_opt : loc) (z0 : vector)
  (d_opt : loc) (oa od : option vector) : M world trajectories :=
  let '(oa, od) :=
    match oa, od with
    | Some _, Some _ => (oa, od)
    | _, _ => (Some (replicate (Z.to_nat P.T) 0.0),
               Some (replicate (Z.to_nat P.T) 0.0))
    end in
  let* (c, vars) :=
    for_break (py_range P.MAX_ITER) (mpc_iteration osqp z_opt z0 d_opt)
      (oa, od, None, None, None, None) in
  let* _ := match c with
            | Continue => print "Iterative is max iter"
            | Break => ret tt
            end in
  ret vars.

(** ** SimulationLoop: one control tick of main *)

Record sim : Type :=
  mk_sim { node : Node.t; ref_path : PATH.t;
           oa : option vector; odelta : option vector;
           time : R; the_world : world }.

Definition on_path {A : Type} (c : M PATH.t A) : M sim A :=
  fun s =>
    let '(r, p) := c (ref_path s) in
    (r, mk_sim (node s) p (oa s) (odelta s) (time s) (the_world s)).

Definition on_world {A : Type} (c : M world A) : M sim A :=
  fun s =>
    let '(r, w) := c (the_world s) in
    (r, mk_sim (node s) (ref_path s) (oa s) (odelta s) (time s) w).

(** The body of the [while] loop of [main] up to the advance of the clock
    (the recording of the trace and the plotting are left out). The arrays
    [z_opt] and [d_opt] enter the heap when they are handed to the
    controller. *)
Definition main_tick (osqp : solver) (sp : vector) : M sim (R * R) :=
  let* s := get in
  let* (z_opt, target_ind, d_opt) :=
    on_path (calc_optimal_trajectory_in_T_step (node s) sp 1.0) in
  let* z_opt := on_world (alloc z_opt) in
  let* d_opt := on_world (alloc d_opt) in
  let z0 := [Node.x (node s); Node.y (node s); Node.v (node s);
             Node.yaw (node s)] in
  let* (oa1, odelta1, ox, oy, oyaw, ov) :=
    on_world (linear_mpc_control osqp z_opt z0 d_opt (oa s) (odelta s)) in
  let* s := get in
  let* _ := put (mk_sim (node s) (ref_path s) oa1 odelta1 (time s)
                   (the_world s)) in
  let* (di, ai) :=
    match odelta1 with
    | Some od =>
        let* di := lift (py_index od 0) in
        let* oa' := lift (match oa1 with
                          | Some l => Ok l
                          | None => Raise TypeError
                          end) in
        let* ai := lift (py_index oa' 0) in
        ret (di, ai)
    | None => ret (0.0, 0.0)
    end in
  let* s := get in
  let* _ := put (mk_sim (Node.update (node s) ai di 1.0) (ref_path s)
                   (oa s) (odelta s) (time s + P.dt) (the_world s)) in
  ret (ai, di).

(** ** Definitions used to state the properties *)

(** The values of the search cursor over successive [nearest_index] calls on
    one PATH object, whether a call returns or raises. *)
Fixpoint cursor_trace (p : PATH.t) (queries : list Node.t) : list Z :=
  match queries with
  | [] => [PATH.ind_old p]
  | n :: rest =>
      PATH.ind_old p :: cursor_trace (snd (PATH.nearest_index n p)) rest
  end.

(** A path whose parallel sample arrays have the length recorded at
    construction. *)
Definition path_wf (p : PATH.t) : Prop :=
  PATH.length p = py_len (PATH.cx p)
  /\ py_len (PATH.cy p) = PATH.length p
  /\ py_len (PATH.cyaw p) = PATH.length p.

(** The shape of a two-dimensional array and its entry (i, j). *)
Definition shape (m : ndarray) (rows cols : nat) : Prop :=
  length m = rows /\ Forall (fun row => length row = cols) m.

Definition entry (m : ndarray) (i j : nat) : option R :=
  match m !! i with
  | Some row => row !! j
  | None => None
  end.

(** Column [j] of a four-row array. *)
Definition column4 (m : ndarray) (j : nat) : list (option R) :=
  [entry m 0 j; entry m 1 j; entry m 2 j; entry m 3 j].

Definition set_heap (w : world) (h : gmap nat ndarray) : world :=
  mk_world h (stdout w) (solved w).


(** The vehicle state after the first [k] controls of [a] and [delta] (as
    many as both provide) have been applied with forward gear. *)
Fixpoint rollout (n : Node.t) (a delta : vector) (k : nat) : Node.t :=
  match k, a, delta with
  | S k', ai :: a', di :: delta' =>
      rollout (Node.update n ai di 1.0) a' delta' k'
  | _, _, _ => n
  end.

(** A state as a column [x, y, v, yaw] of a trajectory array. *)
Definition state_column (n : Node.t) : list (option R) :=
  [Some (Node.x n); Some (Node.y n); Some (Node.v n); Some (Node.yaw n)].

(** Column [j] of a four-row array overwritten by four element writes. *)
Definition set_column4 (m : ndarray) (j : nat) (a0 a1 a2 a3 : R) : ndarray :=
  alter (<[j := a3]>) 3%nat
    (alter (<[j := a2]>) 2%nat
       (alter (<[j := a1]>) 1%nat (alter (<[j := a0]>) 0%nat m))).


(** An angle wrapped to the half-open interval (-pi, pi]. *)
Definition wrapped (angle : R) : Prop := - PI < angle <= PI.

(** The status test of [solve_linear_mpc]. *)
Definition solved_ok (st : status) : bool :=
  status_eqb st OPTIMAL || status_eqb st OPTIMAL_INACCURATE.

Definition no_trajectory : trajectories := (None, None, None, None, None, None).


(** The trajectories read off the solver's variables on success. *)
Definition unpack (out : solver_output) : result trajectories :=
  let? ox := py_index (z_value out) 0 in
  let? oy := py_index (z_value out) 1 in
  let? ov := py_index (z_value out) 2 in
  let? oyaw := py_index (z_value out) 3 in
  let? oa := py_index (u_value out) 0 in
  let? odelta := py_index (u_value out) 1 in
  Ok (Some oa, Some odelta, Some ox, Some oy, Some oyaw, Some ov).


(** A small world used in the examples: the arrays z_opt (location 0),
    z_bar (location 1) and d_opt (location 2), all zero, nothing printed and
    no problem solved yet. *)
Definition example_world : world :=
  mk_world (<[0%nat := np_zeros 4 7]>
              (<[1%nat := np_zeros 4 7]> (<[2%nat := np_zeros 1 7]> ∅)))
    [] [].

(** Solvers that answer every problem alike: the given status and all-zero
    values for z and u. *)
Definition constant_solver (st : status) : solver :=
  fun _ => mk_out st (np_zeros 4 7) (np_zeros 2 6).


(** What [calc_speed_profile] does with segment [i] of a path: when the
    segment moves along both axes it is classified by the angle between the
    movement direction and the reference heading (reverse from pi/4 on);
    otherwise it keeps the classification of the previous segment, the first
    one being forward. *)
Definition segment_classified (cx cy cyaw sp : vector) (ts : R) (i : nat)
  : Prop :=
  forall x0 x1 y0 y1 yaw : R,
    cx !! i = Some x0 -> cx !! S i = Some x1 ->
    cy !! i = Some y0 -> cy !! S i = Some y1 ->
    cyaw !! i = Some yaw ->
    let dx := x1 - x0 in
    let dy := y1 - y0 in
    (dx <> 0 -> dy <> 0 ->
     sp !! i = Some (if Rge_dec (Rabs (pi_2_pi (atan2 dy dx - yaw))) (PI / 4)
                     then - ts else ts))
    /\ (dx = 0 \/ dy = 0 ->
        sp !! i = match i with
                  | O => Some ts
                  | S j => sp !! j
                  end).



(** The control sequence the outer loop starts from: the warm start when
    both of its arrays are given, else zeros. *)
Definition seed (oa od : option vector) : vector * vector :=
  match oa, od with
  | Some a, Some d => (a, d)
  | _, _ => (replicate (Z.to_nat P.T) 0.0, replicate (Z.to_nat P.T) 0.0)
  end.

(** The acceleration and steering rows of the solver's u. *)
Definition controls (out : solver_output) : vector * vector :=
  (nth 0 (u_value out) [], nth 1 (u_value out) []).

(** The summed L1 change of acceleration and steering between two
    candidates. *)
Definition l1_change (prev cur : vector) : R :=
  py_sum (map Rabs (zip_with Rminus cur prev)).

Definition control_change (prev cur : vector * vector) : R :=
  l1_change (fst prev) (fst cur) + l1_change (snd prev) (snd cur).

(** A solver answer that is a solution: status optimal or
    inaccurate-optimal, z of shape NX x (T+1) and u of shape NU x T. *)
Definition good_output (out : solver_output) : Prop :=
  solved_ok (prob_status out) = true
  /\ shape (z_value out) 4 7
  /\ shape (u_value out) 2 6.



(** The successive candidate control sequences of one tick: the seed, then
    the controls the solver returned for each problem it was handed. *)
Definition candidates (osqp : solver) (start : vector * vector)
  (qs : list QP) : list (vector * vector) :=
  start :: map (fun q => controls (osqp q)) qs.


(** A three-sample straight path along the x axis, its cursor at the start,
    and a vehicle at rest at its first sample. *)
Definition example_path : PATH.t :=
  PATH.init [0; 1; 2] [0; 0; 0] [0; 0; 0] [0; 0; 0].

Definition example_node : Node.t := Node.init 0 0 0 0.


(** ** SimulationLoop: the loop of main *)

(** How the [while] loop of [main] ends: by its [break] at the goal, or
    because the simulated time has reached MAX_TIME. *)
Inductive stop : Set := GoalReached | TimeUp.

(** The [while time < P.MAX_TIME] loop of [main], unrolled at most [fuel]
    times ([None]: the fuel ran out first). [cx] and [cy] of [main] are the
    lists the PATH object holds. *)
Fixpoint main_loop (fuel : nat) (osqp : solver) (sp : vector)
  : M sim (option stop) :=
  match fuel with
  | O => ret None
  | S fuel' =>
      let* s := get in
      if Rlt_dec (time s) P.MAX_TIME then
        let* _ := main_tick osqp sp in
        let* s := get in
        let* cxl := lift (py_index (PATH.cx (ref_path s)) (-1)) in
        let* cyl := lift (py_index (PATH.cy (ref_path s)) (-1)) in
        let dist := hypot (Node.x (node s) - cxl) (Node.y (node s) - cyl) in
        if Rlt_dec dist P.GOAL_DIS then
          if Rlt_dec (Rabs (Node.v (node s))) P.STOP_SPEED
          then ret (Some GoalReached)
          else main_loop fuel' osqp sp
        else main_loop fuel' osqp sp
      else ret (Some TimeUp)
  end.

Definition empty_world : world := mk_world ∅ [] [].

(** [main] from the point where the spline course (cx, cy, cyaw, ck) is
    known: speed profile, path object, vehicle at the first sample and at
    rest, a first nearest-index search, no warm start, then the loop. *)
Definition main_after_spline (osqp : solver) (cx cy cyaw ck : vector)
  (fuel : nat) : result (option stop * sim) :=
  let? sp := calc_speed_profile cx cy cyaw P.TARGET_SPEED in
  let ref_path0 := PATH.init cx cy cyaw ck in
  let? x0 := py_index cx 0 in
  let? y0 := py_index cy 0 in
  let? yaw0 := py_index cyaw 0 in
  let node0 := Node.init x0 y0 yaw0 0.0 in
  let s0 := mk_sim node0 ref_path0 None None 0.0 empty_world in
  match (let* _ := on_path (PATH.nearest_index node0) in
         main_loop fuel osqp sp) s0 with
  | (Ok r, s) => Ok (r, s)
  | (Raise e, _) => Raise e
  end.

(** ** Definitions used to state the further properties *)

(** [c] takes every world to one related to it by [rel], whether it returns
    or raises. *)
Definition steps {A : Type} (rel : world -> world -> Prop) (c : M world A)
  : Prop :=
  forall s, rel s (snd (c s)).

(** The heap is the same. *)
Definition same_heap (s s' : world) : Prop := heap s' = heap s.

(** Every location other than [l0] holds what it held. *)
Definition same_but (l0 : loc) (s s' : world) : Prop :=
  forall l, l <> l0 -> heap s' !! l = heap s !! l.

(** Every array that existed is still there, unchanged. *)
Definition keeps_arrays (s s' : world) : Prop :=
  forall l m, heap s !! l = Some m -> heap s' !! l = Some m.

(** The sample of a path and speed profile at an index. *)
Definition sample_at (p : PATH.t) (sp : vector) (index : Z)
  : result (list (option R)) :=
  let? x := py_index (PATH.cx p) index in
  let? y := py_index (PATH.cy p) index in
  let? s := py_index sp index in
  let? yaw := py_index (PATH.cyaw p) index in
  Ok [Some x; Some y; Some s; Some yaw].

(** What the look-ahead needs of the rounding of a float operation:
    rounding to nearest is monotone and leaves a float, 0 among them, as it
    is. The identity (exact arithmetic) is the trivial instance. *)
Definition rounding (fl : R -> R) : Prop :=
  (forall x y, x <= y -> fl x <= fl y)
  /\ (forall x, fl (fl x) = fl x)
  /\ fl 0 = 0.

(** The cumulative travel after [k] passes of the loop: incremented by
    |v| * dt once per pass, every operation rounded by [fl]. *)
Fixpoint travel_after (fl : R -> R) (v : R) (k : nat) : R :=
  match k with
  | O => 0.0
  | S k' => fl (travel_after fl v k' + fl (Rabs v * fl P.dt))
  end.

(** The look-ahead index of horizon column [i]. *)
Definition lookahead_index (fl : R -> R) (node : Node.t) (p : PATH.t)
  (dl : R) (ind : Z) (i : nat) : Z :=
  Z.min (ind + py_round (fl (travel_after fl (Node.v node) (S i) / dl)))
    (PATH.length p - 1).

(** A vehicle moving at 2.5 m/s at the first sample of the example path. *)
Definition moving_node : Node.t := Node.init 0 0 0 2.5.

(** The state the simulation keeps from tick to tick is in order: the path
    is well formed with its cursor in range, the speed profile has the
    path's length, and the warm start, when present, has T entries. *)
Definition sim_ok (sp : vector) (s : sim) : Prop :=
  path_wf (ref_path s)
  /\ (0 <= PATH.ind_old (ref_path s) <= PATH.length (ref_path s) - 1)%Z
  /\ py_len sp = PATH.length (ref_path s)
  /\ length (fst (seed (oa s) (odelta s))) = 6%nat
  /\ length (snd (seed (oa s) (odelta s))) = 6%nat.

(** The distance test of the loop of [main]. *)
Definition at_goal (s : sim) : Prop :=
  exists cxl cyl,
    py_index (PATH.cx (ref_path s)) (-1) = Ok cxl
    /\ py_index (PATH.cy (ref_path s)) (-1) = Ok cyl
    /\ hypot (Node.x (node s) - cxl) (Node.y (node s) - cyl) < P.GOAL_DIS
    /\ Rabs (Node.v (node s)) < P.STOP_SPEED.


(** Stage [t] of the problem built from the arrays z_opt, z_bar and d_opt:
    no tracking reference at t = 0, the column z_opt[:, t] otherwise, and
    the model linearised at (z_bar[2, t], z_bar[3, t], d_opt[0, t]). *)
Definition stage_of (zo zb d : ndarray) (t : Z) (st : stage) : Prop :=
  (t = 0%Z -> st_ref st = None)
  /\ (t <> 0%Z -> exists c, st_ref st = Some c /\ np_col zo t = Ok c)
  /\ exists v phi delta,
       np_get2 zb 2 t = Ok v /\ np_get2 zb 3 t = Ok phi
       /\ np_get2 d 0 t = Ok delta
       /\ st_model st = calc_linear_discrete_model v phi delta.


(** The simulation at its start on the example path: the vehicle at rest at
    the first sample, no warm start, time 0, nothing allocated. *)
Definition example_sim : sim :=
  mk_sim example_node example_path None None 0.0 empty_world.

(** ** Theorems *)

Lemma MAX_STEER_eq : P.MAX_STEER = PI / 4.
Proof. unfold P.MAX_STEER, deg2rad. lra. Qed.

Lemma limit_input_id (delta : R) :
  Rabs delta <= P.MAX_STEER -> Node.limit_input delta = delta.
Proof.
  intros H. unfold Node.limit_input.
  unfold Rabs in H.
  destruct (Rcase_abs delta), (Rge_dec delta P.MAX_STEER),
    (Rle_dec delta (- P.MAX_STEER)); lra.
Qed.

(** C2. At an operating point (v, phi, delta) with |delta| <= MAX_STEER and
    cos(delta) <> 0, the affine model A z + B u + C of
    [calc_linear_discrete_model v phi delta], evaluated at z = (x, y, v, phi)
    and u = (a, delta), is exactly the state [Node.update a delta 1.0]
    produces from (x, y, yaw = phi, v), listed as (x, y, v, yaw). *)
Theorem linear_model_consistent_at_operating_point
  (x y v phi delta a : R) :
  Rabs delta <= P.MAX_STEER ->
  cos delta <> 0 ->
  let n := Node.update (Node.init x y phi v) a delta 1.0 in
  affine (calc_linear_discrete_model v phi delta) [x; y; v; phi] [a; delta]
  = [Node.x n; Node.y n; Node.v n; Node.yaw n].
Proof.
  intros Hd Hc n. subst n.
  unfold affine, calc_linear_discrete_model, matvec, dot, py_sum, Node.update,
    Node.init. cbn.
  rewrite (limit_input_id delta Hd).
  unfold P.dt, P.WB, tan.
  repeat apply (f_equal2 cons); try reflexivity; lra.
Qed.

(** ** Python list operations *)

Lemma py_index_ok {A : Type} (l : list A) (i : Z) :
  (0 <= i < py_len l)%Z -> exists a, py_index l i = Ok a /\ l !! Z.to_nat i = Some a.
Proof.
  intros [H0 H1]. unfold py_index, py_len in *.
  destruct (Z.ltb_spec i 0) as [?|_]; [lia|].
  destruct (Z.ltb_spec i 0) as [?|_]; [lia|].
  destruct (lookup_lt_is_Some_2 l (Z.to_nat i)) as [a Ha]; [lia|].
  exists a. now rewrite Ha.
Qed.

Lemma py_index_nonneg {A : Type} (l : list A) (i : Z) (a : A) :
  (0 <= i)%Z -> py_index l i = Ok a -> l !! Z.to_nat i = Some a.
Proof.
  intros H0. unfold py_index.
  destruct (Z.ltb_spec i 0) as [?|_]; [lia|].
  destruct (Z.ltb_spec i 0) as [?|_]; [lia|].
  destruct (l !! Z.to_nat i); congruence.
Qed.

Lemma py_slice_length {A : Type} (l : list A) (a b : Z) :
  (0 <= a <= py_len l)%Z -> (a <= b)%Z ->
  py_len (py_slice l a b) = (Z.min b (py_len l) - a)%Z.
Proof.
  intros Ha Hb. unfold py_slice, py_slice_bound, py_len in *.
  destruct (Z.ltb_spec a 0) as [?|_]; [lia|].
  destruct (Z.ltb_spec b 0) as [?|_]; [lia|].
  rewrite length_take, length_drop. lia.
Qed.

(** ** numpy operations *)

Lemma np_broadcast2_same (f : R -> R -> R) (a b : vector) :
  length a = length b ->
  np_broadcast2 f a b = Ok (zip_with f a b).
Proof.
  intros H. unfold np_broadcast2.
  now rewrite (proj2 (Nat.eqb_eq _ _) H).
Qed.

Lemma argmin_from_bound (l : vector) (best : R) (besti i : nat) :
  (besti < i)%nat -> (argmin_from best besti i l < i + length l)%nat.
Proof.
  revert best besti i. induction l as [|d l IH]; intros best besti i Hlt; cbn.
  - lia.
  - destruct (Rlt_dec d best).
    + specialize (IH d i (S i)). lia.
    + specialize (IH best besti (S i)). lia.
Qed.

Lemma np_argmin_bound (l : vector) (k : Z) :
  np_argmin l = Ok k -> (0 <= k < py_len l)%Z.
Proof.
  destruct l as [|d l]; cbn; [discriminate|].
  intros [= <-]. pose proof (argmin_from_bound l d 0 1). unfold py_len. cbn.
  lia.
Qed.

Lemma np_argmin_ok (l : vector) :
  (0 < py_len l)%Z -> exists k, np_argmin l = Ok k.
Proof.
  destruct l as [|d l]; unfold py_len; cbn; [lia|]. eauto.
Qed.

(** ** ReferencePath: the nearest-index search *)

Lemma nearest_index_cursor (p : PATH.t) (n : Node.t) :
  (PATH.ind_old p <= PATH.ind_old (snd (PATH.nearest_index n p)))%Z.
Proof.
  unfold PATH.nearest_index, bind, get, lift, put, ret.
  destruct (np_hypot _ _) as [dist|e]; cbn; [|lia].
  destruct (np_argmin dist) as [k|e] eqn:Hk; cbn; [|lia].
  apply np_argmin_bound in Hk.
  destruct (py_index dist k); cbn; [|lia].
  destruct (py_index (PATH.cx p) _); cbn; [|lia].
  destruct (py_index (PATH.cy p) _); cbn; [|lia].
  destruct (py_index (PATH.cyaw p) _); cbn; lia.
Qed.

(** C8. The search cursor never decreases: a [nearest_index] call leaves
    [ind_old] greater than or equal to its value before the call, so over
    every sequence of calls on one PATH object the successive cursor values
    are sorted. *)
Theorem cursor_never_decreases (p : PATH.t) (queries : list Node.t) :
  Sorted Z.le (cursor_trace p queries)
  /\ forall n : Node.t,
       (PATH.ind_old p <= PATH.ind_old (snd (PATH.nearest_index n p)))%Z.
Proof.
  split; [|intros n; apply nearest_index_cursor].
  revert p. induction queries as [|n rest IH]; intros p; cbn [cursor_trace].
  - repeat constructor.
  - constructor; [apply IH|].
    destruct rest; cbn [cursor_trace]; constructor;
      apply nearest_index_cursor.
Qed.

Lemma nearest_index_ok (p : PATH.t) (n : Node.t) :
  path_wf p ->
  (0 <= PATH.ind_old p <= PATH.length p - 1)%Z ->
  exists ind d,
    PATH.nearest_index n p = (Ok (ind, d), PATH.set_ind_old p ind)
    /\ (PATH.ind_old p <= ind <= PATH.length p - 1)%Z.
Proof.
  intros (Hx & Hy & Hw) Hc.
  set (lo := PATH.ind_old p) in *.
  set (hi := (lo + P.N_IND_SEARCH)%Z).
  assert (Hhi : (lo <= hi)%Z) by (unfold hi, P.N_IND_SEARCH; lia).
  assert (Hhi' : (lo < hi)%Z) by (unfold hi, P.N_IND_SEARCH; lia).
  assert (Lx := py_slice_length (PATH.cx p) lo hi).
  assert (Ly := py_slice_length (PATH.cy p) lo hi).
  specialize (Lx ltac:(lia) Hhi). specialize (Ly ltac:(lia) Hhi).
  unfold PATH.nearest_index, bind, get, lift, put, ret. fold lo hi.
  unfold np_hypot. rewrite np_broadcast2_same.
  2:{ rewrite !length_map. unfold py_len in *. lia. }
  match goal with |- context [np_argmin ?d] => set (dist := d) end.
  assert (Ld : py_len dist = (Z.min hi (PATH.length p) - lo)%Z).
  { unfold dist, py_len in *. rewrite length_zip_with, !length_map. lia. }
  destruct (np_argmin_ok dist) as [k Hk]; [lia|]. rewrite Hk.
  pose proof (np_argmin_bound dist k Hk) as Bk.
  destruct (py_index_ok dist k Bk) as (dm & -> & _).
  destruct (py_index_ok (PATH.cx p) (k + lo)) as (a & -> & _); [lia|].
  destruct (py_index_ok (PATH.cy p) (k + lo)) as (b & -> & _); [lia|].
  destruct (py_index_ok (PATH.cyaw p) (k + lo)) as (c & -> & _); [lia|].
  eexists _, _. split; [reflexivity|]. lia.
Qed.

(** C9. On a path with non-empty, equally long sample arrays and a cursor
    within 0 .. length - 1, [nearest_index] returns (it does not raise) an
    index between the cursor and length - 1, which becomes the new cursor;
    [cx], [cy] and [cyaw] are all defined at the returned index. *)
Theorem nearest_index_in_bounds (p : PATH.t) (n : Node.t) :
  path_wf p ->
  (0 < PATH.length p)%Z ->
  (0 <= PATH.ind_old p <= PATH.length p - 1)%Z ->
  exists ind d p',
    PATH.nearest_index n p = (Ok (ind, d), p')
    /\ (PATH.ind_old p <= ind <= PATH.length p - 1)%Z
    /\ PATH.ind_old p' = ind
    /\ (exists x y w, py_index (PATH.cx p) ind = Ok x
                      /\ py_index (PATH.cy p) ind = Ok y
                      /\ py_index (PATH.cyaw p) ind = Ok w).
Proof.
  intros Hwf Hlen Hc.
  destruct (nearest_index_ok p n Hwf Hc) as (ind & d & Heq & Hb).
  exists ind, d, (PATH.set_ind_old p ind).
  destruct Hwf as (Hx & Hy & Hw).
  repeat split; try assumption; try lia.
  destruct (py_index_ok (PATH.cx p) ind) as (a & Ha & _); [lia|].
  destruct (py_index_ok (PATH.cy p) ind) as (b & Hb' & _); [lia|].
  destruct (py_index_ok (PATH.cyaw p) ind) as (c & Hc' & _); [lia|].
  eauto 10.
Qed.

Lemma py_setitem_ok {A : Type} (l : list A) (i : Z) (a : A) :
  (0 <= i < py_len l)%Z -> py_setitem l i a = Ok (<[Z.to_nat i := a]> l).
Proof.
  intros [H0 H1]. unfold py_setitem.
  destruct (Z.ltb_spec i 0) as [?|_]; [lia|].
  destruct (Z.ltb_spec i 0) as [?|_]; [lia|].
  destruct (Z.ltb_spec i (py_len l)) as [_|?]; [reflexivity|lia].
Qed.

(** ** Two-dimensional arrays *)

Lemma shape_row (m : ndarray) (r c i : nat) (row : list R) :
  shape m r c -> m !! i = Some row -> length row = c.
Proof.
  intros [_ HF] Hi. rewrite Forall_lookup in HF. exact (HF i row Hi).
Qed.

Lemma shape_entry (m : ndarray) (r c i j : nat) :
  shape m r c -> (i < r)%nat -> (j < c)%nat -> exists a, entry m i j = Some a.
Proof.
  intros Hs Hi Hj. unfold entry.
  destruct (lookup_lt_is_Some_2 m i) as [row Hrow]; [destruct Hs; lia|].
  rewrite Hrow. apply lookup_lt_is_Some_2.
  rewrite (shape_row m r c i row Hs Hrow). exact Hj.
Qed.

Lemma shape_alter (m : ndarray) (r c i j : nat) (a : R) :
  shape m r c -> shape (alter (<[j := a]>) i m) r c.
Proof.
  intros [Hl HF]. split.
  - now rewrite length_alter.
  - apply Forall_alter; [exact HF|]. intros row _ Hrow.
    now rewrite length_insert.
Qed.

Lemma entry_alter (m : ndarray) (r c i j : nat) (a : R) (i' j' : nat) :
  shape m r c -> (i < r)%nat -> (j < c)%nat ->
  entry (alter (<[j := a]>) i m) i' j'
  = if decide (i' = i /\ j' = j) then Some a else entry m i' j'.
Proof.
  intros Hs Hi Hj. unfold entry. rewrite list_lookup_alter.
  destruct (decide (i = i')) as [Heq|Hne].
  - subst i'. destruct (lookup_lt_is_Some_2 m i) as [row Hrow]; [destruct Hs; lia|].
    rewrite Hrow. cbn. rewrite list_lookup_insert.
    rewrite (shape_row m r c i row Hs Hrow).
    repeat case_decide; try reflexivity; try lia; naive_solver.
  - case_decide; [naive_solver|reflexivity].
Qed.

Lemma np_set2_ok (m : ndarray) (r c : nat) (i j : Z) (a : R) :
  shape m r c ->
  (0 <= i < Z.of_nat r)%Z -> (0 <= j < Z.of_nat c)%Z ->
  np_set2 m i j a = Ok (alter (<[Z.to_nat j := a]>) (Z.to_nat i) m).
Proof.
  intros Hs Hi Hj. unfold np_set2.
  destruct (py_index_ok m i) as (row & -> & Hrow).
  { destruct Hs as [Hl _]. unfold py_len. lia. }
  cbn. rewrite py_setitem_ok.
  2:{ unfold py_len. rewrite (shape_row m r c _ row Hs Hrow). lia. }
  cbn. rewrite py_setitem_ok.
  2:{ destruct Hs as [Hl _]. unfold py_len. lia. }
  f_equal. apply list_eq. intros k.
  rewrite list_lookup_alter, list_lookup_insert.
  destruct (decide (Z.to_nat i = k)) as [<-|Hne].
  - rewrite Hrow. cbn. case_decide as Hd; [reflexivity|].
    destruct Hs as [Hl _]. lia.
  - case_decide; [naive_solver|reflexivity].
Qed.

Lemma np_get2_entry (m : ndarray) (r c : nat) (i j : Z) :
  shape m r c ->
  (0 <= i < Z.of_nat r)%Z -> (0 <= j < Z.of_nat c)%Z ->
  exists a, np_get2 m i j = Ok a /\ entry m (Z.to_nat i) (Z.to_nat j) = Some a.
Proof.
  intros Hs Hi Hj. unfold np_get2, entry.
  destruct (py_index_ok m i) as (row & -> & Hrow).
  { destruct Hs as [Hl _]. unfold py_len. lia. }
  cbn. rewrite Hrow.
  destruct (py_index_ok row j) as (a & -> & Ha); [|eauto].
  unfold py_len. rewrite (shape_row m r c _ row Hs Hrow). lia.
Qed.

Lemma shape_np_zeros (r c : Z) :
  shape (np_zeros r c) (Z.to_nat r) (Z.to_nat c).
Proof.
  unfold np_zeros. split.
  - apply length_replicate.
  - apply Forall_replicate, length_replicate.
Qed.

Lemma shape_np_scale (m : ndarray) (r c : nat) (k : R) :
  shape m r c -> shape (np_scale m k) r c.
Proof.
  intros [Hl HF]. unfold np_scale. split.
  - now rewrite length_map.
  - apply Forall_map. eapply Forall_impl; [exact HF|].
    intros row Hrow. cbn. now rewrite length_map.
Qed.

Lemma np_col_ok (m : ndarray) (r c : nat) (j : Z) :
  shape m r c -> (0 <= j < Z.of_nat c)%Z -> exists col, np_col m j = Ok col.
Proof.
  intros [_ HF] Hj. unfold np_col.
  enough (forall acc : list R, exists col,
            forR m (fun row acc => let? a := py_index row j in
                                   Ok (acc ++ [a])) acc = Ok col) by auto.
  induction HF as [|row m Hrow _ IH]; intros acc; cbn; [eauto|].
  destruct (py_index_ok row j) as (a & -> & _); [unfold py_len; lia|].
  cbn. apply IH.
Qed.

(** ** Loops *)

Lemma for_invariant {S St I : Type} (P : nat -> St -> S -> Prop)
  (items : list I) (body : I -> St -> M S St) (st : St) (s : S) :
  P 0%nat st s ->
  (forall k i st s, items !! k = Some i -> P k st s ->
     exists st' s', body i st s = (Ok st', s') /\ P (Datatypes.S k) st' s') ->
  exists st' s', for_ items body st s = (Ok st', s') /\ P (length items) st' s'.
Proof.
  revert P st s. induction items as [|i items IH]; intros P st s H0 Hstep.
  - cbn. eauto.
  - destruct (Hstep 0%nat i st s eq_refl H0) as (st1 & s1 & Hb & H1).
    destruct (IH (fun k => P (Datatypes.S k)) st1 s1 H1) as (st2 & s2 & Hf & H2).
    { intros k j st' s' Hk HP. apply (Hstep (Datatypes.S k) j st' s' Hk HP). }
    exists st2, s2. split; [|exact H2].
    cbn. unfold bind. rewrite Hb. exact Hf.
Qed.

Lemma py_range_lookup (n : Z) (k : nat) (i : Z) :
  py_range n !! k = Some i -> i = Z.of_nat k /\ (k < Z.to_nat n)%nat.
Proof.
  unfold py_range. rewrite list_lookup_fmap.
  destruct (seq 0 (Z.to_nat n) !! k) as [k'|] eqn:Hk; [|discriminate].
  apply lookup_seq in Hk as [-> Hlt]. cbn. intros [= <-]. split; [reflexivity|lia].
Qed.

Lemma py_range2_lookup (a b : Z) (k : nat) (i : Z) :
  py_range2 a b !! k = Some i ->
  i = (a + Z.of_nat k)%Z /\ (k < Z.to_nat (b - a))%nat.
Proof.
  unfold py_range2. rewrite list_lookup_fmap.
  destruct (seq 0 (Z.to_nat (b - a)) !! k) as [k'|] eqn:Hk; [|discriminate].
  apply lookup_seq in Hk as [-> Hlt]. cbn. intros [= <-]. split; [reflexivity|lia].
Qed.

Lemma zip3_lookup {A B C : Type} (a : list A) (b : list B) (c : list C)
  (k : nat) (x : A) (y : B) (z : C) :
  zip3 a b c !! k = Some (x, y, z) ->
  a !! k = Some x /\ b !! k = Some y /\ c !! k = Some z.
Proof.
  revert b c k. induction a as [|x' a IH]; intros [|y' b] [|z' c] k;
    try discriminate.
  destruct k as [|k]; cbn.
  - intros [= -> -> ->]. auto.
  - apply IH.
Qed.

Lemma zip3_length {A B C : Type} (a : list A) (b : list B) (c : list C) :
  length (zip3 a b c) = Nat.min (Nat.min (length a) (length b)) (length c).
Proof.
  revert b c. induction a as [|x a IH]; intros [|y b] [|z c]; cbn; try lia.
  rewrite IH. lia.
Qed.

Lemma rollout_step (n : Node.t) (a delta : vector) (k : nat) (ai di : R) :
  a !! k = Some ai -> delta !! k = Some di ->
  rollout n a delta (S k) = Node.update (rollout n a delta k) ai di 1.0.
Proof.
  revert n a delta. induction k as [|k IH]; intros n [|a0 a] [|d0 delta];
    try discriminate.
  - cbn. intros [= ->] [= ->]. now destruct a, delta.
  - intros Ha Hd. cbn in Ha, Hd.
    change (rollout n (a0 :: a) (d0 :: delta) (S (S k)))
      with (rollout (Node.update n a0 d0 1.0) a delta (S k)).
    rewrite (IH _ a delta Ha Hd). reflexivity.
Qed.

(** ** The heap of arrays *)

Lemma set_heap_twice (w : world) (h1 h2 : gmap nat ndarray) :
  set_heap (set_heap w h1) h2 = set_heap w h2.
Proof. reflexivity. Qed.

Lemma write2_at (w : world) (h : gmap nat ndarray) (l : loc) (m : ndarray)
  (r c : nat) (i j : Z) (a : R) :
  shape m r c ->
  (0 <= i < Z.of_nat r)%Z -> (0 <= j < Z.of_nat c)%Z ->
  write2 l i j a (set_heap w (<[l := m]> h))
  = (Ok tt, set_heap w (<[l := alter (<[Z.to_nat j := a]>) (Z.to_nat i) m]> h)).
Proof.
  intros Hs Hi Hj. unfold write2, bind, read, lift, store. cbn.
  rewrite lookup_insert_eq. cbn.
  rewrite (np_set2_ok m r c i j a Hs Hi Hj).
  unfold set_heap. cbn. now rewrite insert_insert_eq.
Qed.

Lemma shape_set_column4 (m : ndarray) (c j : nat) (a0 a1 a2 a3 : R) :
  shape m 4 c -> shape (set_column4 m j a0 a1 a2 a3) 4 c.
Proof. intros Hs. unfold set_column4. now repeat apply shape_alter. Qed.

Lemma entry_set_column4 (m : ndarray) (c j : nat) (a0 a1 a2 a3 : R)
  (i' j' : nat) :
  shape m 4 c -> (j < c)%nat ->
  entry (set_column4 m j a0 a1 a2 a3) i' j'
  = if decide (j' = j /\ i' < 4)%nat
    then nth i' [Some a0; Some a1; Some a2; Some a3] None
    else entry m i' j'.
Proof.
  intros Hs Hj. unfold set_column4.
  rewrite (entry_alter _ 4 c) by (repeat apply shape_alter; (assumption || lia)).
  rewrite (entry_alter _ 4 c) by (repeat apply shape_alter; (assumption || lia)).
  rewrite (entry_alter _ 4 c) by (repeat apply shape_alter; (assumption || lia)).
  rewrite (entry_alter _ 4 c) by (repeat apply shape_alter; (assumption || lia)).
  repeat case_decide; try reflexivity; try lia;
    destruct i' as [|[|[|[|i']]]]; cbn; try reflexivity; lia.
Qed.

Lemma column4_set_column4 (m : ndarray) (c j : nat) (a0 a1 a2 a3 : R) :
  shape m 4 c -> (j < c)%nat ->
  column4 (set_column4 m j a0 a1 a2 a3) j = [Some a0; Some a1; Some a2; Some a3].
Proof.
  intros Hs Hj. unfold column4.
  rewrite !(entry_set_column4 m c) by assumption.
  repeat case_decide; try reflexivity; lia.
Qed.

Lemma column4_set_column4_ne (m : ndarray) (c j j' : nat) (a0 a1 a2 a3 : R) :
  shape m 4 c -> (j < c)%nat -> j' <> j ->
  column4 (set_column4 m j a0 a1 a2 a3) j' = column4 m j'.
Proof.
  intros Hs Hj Hne. unfold column4.
  rewrite !(entry_set_column4 m c) by assumption.
  repeat case_decide; try reflexivity; lia.
Qed.

(** ** Stepping through monadic code *)

Lemma bind_ok {S A B : Type} (c : M S A) (k : A -> M S B) (s s' : S) (a : A) :
  c s = (Ok a, s') -> bind c k s = k a s'.
Proof. intros H. unfold bind. now rewrite H. Qed.

Lemma bind_raise {S A B : Type} (c : M S A) (k : A -> M S B) (s s' : S)
  (e : exn) :
  c s = (Raise e, s') -> bind c k s = (Raise e, s').
Proof. intros H. unfold bind. now rewrite H. Qed.

Ltac write_step :=
  erewrite bind_ok
    by (eapply write2_at;
        [repeat apply shape_alter; eassumption | lia | lia]).

(** ** Predictor *)

Lemma predict_model_spec (x0 y0 v0 yaw0 : R) (a delta : vector) (z_opt : loc)
  (zo : ndarray) (w : world) :
  heap w !! z_opt = Some zo ->
  shape zo 4 7 ->
  let l := fresh (dom (heap w)) in
  let n0 := Node.init x0 y0 yaw0 v0 in
  exists zb,
    predict_model [x0; y0; v0; yaw0] (Some a) (Some delta) z_opt w
    = (Ok l, set_heap w (<[l := zb]> (heap w)))
    /\ shape zb 4 7
    /\ column4 zb 0 = state_column n0
    /\ forall j, (1 <= j <= Nat.min (Nat.min (length a) (length delta)) 6)%nat ->
                 column4 zb j = state_column (rollout n0 a delta j).
Proof.
  intros Hz Hs l n0.
  set (z0 := [x0; y0; v0; yaw0]).
  assert (Hs0 : shape (np_scale zo 0.0) 4 7) by now apply shape_np_scale.
  unfold predict_model.
  rewrite (bind_ok _ _ w w zo) by (unfold read; now rewrite Hz).
  rewrite (bind_ok _ _ w (set_heap w (<[l := np_scale zo 0.0]> (heap w))) l)
    by reflexivity.
  cbv beta.
  (* the loop over z0 fills column 0 *)
  match goal with |- context [for_ ?items ?body tt] =>
    destruct (for_invariant
      (fun k (_ : unit) s =>
         exists zb, s = set_heap w (<[l := zb]> (heap w)) /\ shape zb 4 7
                    /\ forall i, (i < k)%nat -> entry zb i 0 = z0 !! i)
      items body tt (set_heap w (<[l := np_scale zo 0.0]> (heap w))))
      as ([] & s1 & Hloop1 & (zb1 & -> & Hs1 & Hc1))
  end.
  { exists (np_scale zo 0.0). repeat split; try apply Hs0. intros i Hi. lia. }
  { intros k i [] s Hk (zb & -> & Hsb & Hcol).
    apply py_range_lookup in Hk as [-> Hk].
    assert (Hl0 : py_len z0 = 4%Z) by reflexivity. rewrite Hl0 in Hk.
    destruct (py_index_ok z0 (Z.of_nat k)) as (zi & Hzi & Hzk); [lia|].
    exists tt. eexists. split.
    - rewrite (bind_ok _ _ _ _ zi) by (unfold lift; now rewrite Hzi).
      apply (write2_at w (heap w) l zb 4 7); [exact Hsb|lia|lia].
    - eexists. split; [reflexivity|]. split; [now apply shape_alter|].
      intros i Hi. rewrite (entry_alter zb 4 7) by (assumption || lia).
      rewrite Nat2Z.id in *. case_decide as Hd.
      + destruct Hd as [-> _]. now rewrite Hzk.
      + apply Hcol. lia. }
  rewrite (bind_ok _ _ _ _ _ Hloop1).
  rewrite (bind_ok _ _ _ _ x0) by reflexivity.
  rewrite (bind_ok _ _ _ _ y0) by reflexivity.
  rewrite (bind_ok _ _ _ _ v0) by reflexivity.
  rewrite (bind_ok _ _ _ _ yaw0) by reflexivity.
  rewrite (bind_ok _ _ _ _ a) by reflexivity.
  rewrite (bind_ok _ _ _ _ delta) by reflexivity.
  cbv beta. fold n0.
  assert (Hcol0 : column4 zb1 0 = state_column n0).
  { change (length (py_range (py_len z0))) with 4%nat in Hc1.
    unfold column4, state_column. rewrite !Hc1 by lia. reflexivity. }
  (* the loop over the controls fills columns 1 .. *)
  match goal with |- context [for_ ?items ?body n0] =>
    destruct (for_invariant
      (fun k n s =>
         n = rollout n0 a delta k
         /\ exists zb, s = set_heap w (<[l := zb]> (heap w)) /\ shape zb 4 7
              /\ column4 zb 0 = state_column n0
              /\ forall j, (1 <= j <= k)%nat ->
                           column4 zb j = state_column (rollout n0 a delta j))
      items body n0 (set_heap w (<[l := zb1]> (heap w))))
      as (n2 & s2 & Hloop2 & (_ & zb2 & -> & Hs2 & Hc0 & Hc2))
  end.
  { split; [now destruct a, delta|]. exists zb1. repeat split; try apply Hs1.
    - exact Hcol0.
    - intros j Hj. lia. }
  { intros k [[ai di] i] n s Hk (-> & zb & -> & Hsb & Hb0 & Hcol).
    apply zip3_lookup in Hk as (Ha & Hd & Hi).
    apply py_range2_lookup in Hi as [-> Hk]. unfold P.T in Hk.
    rewrite <- (rollout_step n0 a delta k ai di Ha Hd).
    set (n1 := rollout n0 a delta (S k)).
    assert (Hj : (0 <= 1 + Z.of_nat k < Z.of_nat 7)%Z) by lia.
    assert (Hr0 : (0 <= 0 < Z.of_nat 4)%Z) by lia.
    assert (Hr1 : (0 <= 1 < Z.of_nat 4)%Z) by lia.
    assert (Hr2 : (0 <= 2 < Z.of_nat 4)%Z) by lia.
    assert (Hr3 : (0 <= 3 < Z.of_nat 4)%Z) by lia.
    exists n1. eexists. split.
    - cbv beta iota.
      do 4 write_step. reflexivity.
    - split; [reflexivity|].
      replace (Z.to_nat (1 + Z.of_nat k)) with (S k) by lia.
      change (Z.to_nat 0) with 0%nat. change (Z.to_nat 1) with 1%nat.
      change (Z.to_nat 2) with 2%nat. change (Z.to_nat 3) with 3%nat.
      match goal with |- exists zb, set_heap w (<[l := ?m]> _) = _ /\ _ =>
        change m with (set_column4 zb (S k) (Node.x n1) (Node.y n1)
                         (Node.v n1) (Node.yaw n1))
      end.
      eexists. split; [reflexivity|].
      split; [now apply shape_set_column4|].
      split.
      + rewrite (column4_set_column4_ne zb 7) by (assumption || lia).
        exact Hb0.
      + intros j Hjk. destruct (decide (j = S k)) as [->|Hne].
        * now rewrite (column4_set_column4 zb 7) by (assumption || lia).
        * rewrite (column4_set_column4_ne zb 7) by (assumption || lia).
          apply Hcol. lia. }
  rewrite (bind_ok _ _ _ _ _ Hloop2).
  exists zb2. split; [reflexivity|]. split; [exact Hs2|]. split; [exact Hc0|].
  intros j Hj. apply Hc2. rewrite zip3_length.
  unfold py_range2. rewrite length_map, length_seq. unfold P.T. lia.
Qed.

Lemma rollout_gear (x0 y0 yaw0 v0 g : R) (a delta : vector) (j : nat) :
  state_column (rollout (Node.mk x0 y0 yaw0 v0 g) a delta j)
  = state_column (rollout (Node.init x0 y0 yaw0 v0) a delta j).
Proof.
  destruct a as [|ai a], delta as [|di delta], j as [|j]; reflexivity.
Qed.

(** C10. [predict_model] leaves the array [z_opt] (and every array of the
    heap) as it was: the trajectory it returns is a new array. Column 0 of
    that array is the initial state z0, and column j, for each of the
    controls applied, is the state after j updates with gear 1.0, whatever
    gear the initial state is given. *)
Theorem predict_model_fresh_trajectory (x0 y0 v0 yaw0 : R) (a delta : vector)
  (z_opt : loc) (zo : ndarray) (w : world) :
  heap w !! z_opt = Some zo ->
  shape zo 4 7 ->
  exists z_bar zb w',
    predict_model [x0; y0; v0; yaw0] (Some a) (Some delta) z_opt w = (Ok z_bar, w')
    /\ heap w !! z_bar = None
    /\ heap w' = <[z_bar := zb]> (heap w)
    /\ heap w' !! z_opt = Some zo
    /\ (forall l, l <> z_bar -> heap w' !! l = heap w !! l)
    /\ column4 zb 0 = [Some x0; Some y0; Some v0; Some yaw0]
    /\ forall (j : nat) (g : R),
         (1 <= j <= Nat.min (Nat.min (length a) (length delta)) (Z.to_nat P.T))%nat ->
         column4 zb j
         = state_column (rollout (Node.mk x0 y0 yaw0 v0 g) a delta j).
Proof.
  intros Hz Hs.
  destruct (predict_model_spec x0 y0 v0 yaw0 a delta z_opt zo w Hz Hs)
    as (zb & Hrun & _ & Hc0 & Hcols).
  set (l := fresh (dom (heap w))) in *.
  assert (Hfresh : heap w !! l = None).
  { apply not_elem_of_dom. apply is_fresh. }
  exists l, zb, (set_heap w (<[l := zb]> (heap w))).
  split; [exact Hrun|]. split; [exact Hfresh|]. split; [reflexivity|].
  split; [|split; [|split]].
  - cbn. rewrite lookup_insert_ne; [exact Hz|]. congruence.
  - intros l' Hne. cbn. now rewrite lookup_insert_ne.
  - exact Hc0.
  - intros j g Hj. rewrite rollout_gear. apply Hcols. exact Hj.
Qed.

(** ** VehicleState *)

Lemma tan_limit_input_bound (delta : R) :
  Rabs (tan (Node.limit_input delta)) <= 1.
Proof.
  assert (Hpi := PI_RGT_0).
  assert (Hb : - (PI / 4) <= Node.limit_input delta <= PI / 4).
  { unfold Node.limit_input. rewrite MAX_STEER_eq.
    destruct (Rge_dec delta (PI / 4)); [lra|].
    destruct (Rle_dec delta (- (PI / 4))); lra. }
  set (d := Node.limit_input delta) in *.
  assert (Hhi : tan d <= 1).
  { rewrite <- tan_PI4. destruct (Req_dec d (PI / 4)) as [->|Hne]; [lra|].
    left. apply tan_increasing; lra. }
  assert (Hlo : - 1 <= tan d).
  { replace (-1) with (- tan (PI / 4)) by (rewrite tan_PI4; lra).
    rewrite <- tan_neg.
    destruct (Req_dec d (- (PI / 4))) as [->|Hne]; [lra|].
    left. apply tan_increasing; lra. }
  apply Rabs_le. lra.
Qed.

(** C6 (as amended). [Node.update] adds (v / WB) * tan(limit_input(delta)) * dt
    to the yaw and does not wrap the sum, which differs from the old yaw by
    at most |v| * dt / WB; the new yaw lies in (-pi, pi] exactly when that
    sum does. *)
Theorem update_yaw_not_wrapped (s : Node.t) (a delta direct : R) :
  let yaw' := Node.yaw (Node.update s a delta direct) in
  yaw' = Node.yaw s + Node.v s / P.WB * tan (Node.limit_input delta) * P.dt
  /\ Rabs (yaw' - Node.yaw s) <= Rabs (Node.v s) * P.dt / P.WB
  /\ (wrapped yaw' <->
      wrapped (Node.yaw s
               + Node.v s / P.WB * tan (Node.limit_input delta) * P.dt)).
Proof.
  cbn. split; [reflexivity|]. split; [|reflexivity].
  pose proof (tan_limit_input_bound delta) as Ht.
  set (t := tan (Node.limit_input delta)) in *.
  replace (Node.yaw s + Node.v s / P.WB * t * P.dt - Node.yaw s)
    with (Node.v s * t * (P.dt / P.WB)) by (unfold P.dt, P.WB; lra).
  rewrite !Rabs_mult.
  rewrite (Rabs_pos_eq (P.dt / P.WB)) by (unfold P.dt, P.WB; lra).
  pose proof (Rabs_pos (Node.v s)) as Hv.
  unfold P.dt, P.WB in *. nra.
Qed.

(** C6 (as stated) fails: from yaw = pi with v = 2.5 and a steering command
    of pi/4 the update yields yaw = pi + 0.2, outside (-pi, pi]. *)
Lemma update_yaw_leaves_interval :
  let s := Node.mk 0 0 PI 2.5 1 in
  wrapped (Node.yaw s) /\ ~ wrapped (Node.yaw (Node.update s 0 (PI / 4) 1)).
Proof.
  assert (Hpi := PI_RGT_0).
  assert (Hl : Node.limit_input (PI / 4) = PI / 4).
  { unfold Node.limit_input. rewrite MAX_STEER_eq.
    destruct (Rge_dec (PI / 4) (PI / 4)); [reflexivity|lra]. }
  cbn. rewrite Hl, tan_PI4. unfold wrapped, P.WB, P.dt.
  split; [lra|]. intros [_ H]. lra.
Qed.

(** ** QPFormulator/Solver *)

Lemma solve_linear_mpc_spec (osqp : solver) (z_opt z_bar : loc) (z0 : vector)
  (d_opt : loc) (w : world) (zo zb d : ndarray) :
  heap w !! z_opt = Some zo -> shape zo 4 7 ->
  heap w !! z_bar = Some zb -> shape zb 4 7 ->
  heap w !! d_opt = Some d -> shape d 1 7 ->
  exists q,
    solve_linear_mpc osqp z_opt z_bar z0 d_opt w
    = if solved_ok (prob_status (osqp q))
      then (unpack (osqp q),
            mk_world (heap w) (stdout w) (solved w ++ [q]))
      else (Ok no_trajectory,
            mk_world (heap w) (stdout w ++ ["Cannot solve linear mpc"%string])
              (solved w ++ [q])).
Proof.
  intros Hzo Hso Hzb Hsb Hd Hsd.
  unfold solve_linear_mpc.
  rewrite (bind_ok _ _ w w zo) by (unfold read; now rewrite Hzo).
  rewrite (bind_ok _ _ w w zb) by (unfold read; now rewrite Hzb).
  rewrite (bind_ok _ _ w w d) by (unfold read; now rewrite Hd).
  cbv beta.
  match goal with |- context [for_ ?items ?body []] =>
    destruct (for_invariant (fun _ (_ : list stage) s => s = w)
                items body [] w) as (stages & w1 & Hloop & ->)
  end.
  { reflexivity. }
  { intros k t acc s Hk ->. apply py_range_lookup in Hk as [-> Hk].
    unfold P.T in Hk.
    destruct (np_get2_entry zb 4 7 2 (Z.of_nat k) Hsb) as (v & Hv & _); [lia..|].
    destruct (np_get2_entry zb 4 7 3 (Z.of_nat k) Hsb) as (phi & Hphi & _);
      [lia..|].
    destruct (np_get2_entry d 1 7 0 (Z.of_nat k) Hsd) as (dl & Hdl & _);
      [lia..|].
    assert (Href : exists ref,
               (if (Z.of_nat k =? 0)%Z then ret None
                else let* c := lift (np_col zo (Z.of_nat k)) in ret (Some c)) w
               = (Ok ref, w)).
    { destruct (Z.of_nat k =? 0)%Z; [now eexists|].
      destruct (np_col_ok zo 4 7 (Z.of_nat k) Hso) as (c & Hc); [lia|].
      exists (Some c). now rewrite (bind_ok _ _ w w c) by (unfold lift; now rewrite Hc). }
    destruct Href as (ref & Href).
    eexists _, w. split; [|reflexivity].
    rewrite (bind_ok _ _ w w ref Href).
    rewrite (bind_ok _ _ w w v) by (unfold lift; now rewrite Hv).
    rewrite (bind_ok _ _ w w phi) by (unfold lift; now rewrite Hphi).
    rewrite (bind_ok _ _ w w dl) by (unfold lift; now rewrite Hdl).
    reflexivity. }
  rewrite (bind_ok _ _ _ _ _ Hloop). cbv beta.
  destruct (np_col_ok zo 4 7 P.T Hso) as (term & Hterm); [unfold P.T; lia|].
  rewrite (bind_ok _ _ w w term) by (unfold lift; now rewrite Hterm).
  exists (mk_QP stages term z0).
  rewrite (bind_ok _ _ w (mk_world (heap w) (stdout w)
                            (solved w ++ [mk_QP stages term z0]))
             (osqp (mk_QP stages term z0))) by reflexivity.
  cbv beta. fold (solved_ok (prob_status (osqp (mk_QP stages term z0)))).
  set (out := osqp (mk_QP stages term z0)).
  destruct (solved_ok (prob_status out)); [|reflexivity].
  unfold unpack, bind, lift, ret, bindR.
  repeat match goal with
         | |- context [py_index ?l ?i] => destruct (py_index l i)
         end; reflexivity.
Qed.

Lemma solved_ok_false (st : status) :
  st <> OPTIMAL -> st <> OPTIMAL_INACCURATE -> solved_ok st = false.
Proof. destruct st; intros H1 H2; try reflexivity; congruence. Qed.

Lemma solved_ok_true (st : status) :
  st = OPTIMAL \/ st = OPTIMAL_INACCURATE -> solved_ok st = true.
Proof. intros [->| ->]; reflexivity. Qed.

(** C3 (as amended). With well-shaped arrays [solve_linear_mpc] hands one
    problem to the solver. When the status is neither optimal nor
    inaccurate-optimal it prints "Cannot solve linear mpc" and returns None
    for all six outputs; when the status is optimal or inaccurate-optimal it
    returns the solver's values and prints nothing. *)
Theorem solve_failure_when_not_optimal (osqp : solver) (z_opt z_bar : loc)
  (z0 : vector) (d_opt : loc) (w : world) (zo zb d : ndarray) :
  heap w !! z_opt = Some zo -> shape zo 4 7 ->
  heap w !! z_bar = Some zb -> shape zb 4 7 ->
  heap w !! d_opt = Some d -> shape d 1 7 ->
  let run := solve_linear_mpc osqp z_opt z_bar z0 d_opt w in
  exists q,
    solved (snd run) = solved w ++ [q]
    /\ (prob_status (osqp q) <> OPTIMAL ->
        prob_status (osqp q) <> OPTIMAL_INACCURATE ->
        fst run = Ok no_trajectory
        /\ stdout (snd run) = stdout w ++ ["Cannot solve linear mpc"%string])
    /\ (prob_status (osqp q) = OPTIMAL
        \/ prob_status (osqp q) = OPTIMAL_INACCURATE ->
        fst run = unpack (osqp q) /\ stdout (snd run) = stdout w).
Proof.
  intros Hzo Hso Hzb Hsb Hd Hsd run.
  destruct (solve_linear_mpc_spec osqp z_opt z_bar z0 d_opt w zo zb d
              Hzo Hso Hzb Hsb Hd Hsd) as (q & Hrun).
  exists q. subst run. rewrite Hrun. repeat split.
  - destruct (solved_ok _); reflexivity.
  - now rewrite solved_ok_false.
  - now rewrite solved_ok_false.
  - now rewrite solved_ok_true.
  - now rewrite solved_ok_true.
Qed.

Lemma example_world_z_opt : heap example_world !! 0%nat = Some (np_zeros 4 7).
Proof. reflexivity. Qed.

Lemma example_world_z_bar : heap example_world !! 1%nat = Some (np_zeros 4 7).
Proof. reflexivity. Qed.

Lemma example_world_d_opt : heap example_world !! 2%nat = Some (np_zeros 1 7).
Proof. reflexivity. Qed.

Lemma solve_failure_when_not_optimal_witness :
  let run := solve_linear_mpc (constant_solver INFEASIBLE) 0%nat 1%nat
               [0; 0; 0; 0] 2%nat example_world in
  exists q,
    solved (snd run) = solved example_world ++ [q]
    /\ (prob_status (constant_solver INFEASIBLE q) <> OPTIMAL ->
        prob_status (constant_solver INFEASIBLE q) <> OPTIMAL_INACCURATE ->
        fst run = Ok no_trajectory
        /\ stdout (snd run)
           = stdout example_world ++ ["Cannot solve linear mpc"%string])
    /\ (prob_status (constant_solver INFEASIBLE q) = OPTIMAL
        \/ prob_status (constant_solver INFEASIBLE q) = OPTIMAL_INACCURATE ->
        fst run = unpack (constant_solver INFEASIBLE q)
        /\ stdout (snd run) = stdout example_world).
Proof.
  apply (solve_failure_when_not_optimal (constant_solver INFEASIBLE)
           0%nat 1%nat [0; 0; 0; 0] 2%nat example_world
           (np_zeros 4 7) (np_zeros 4 7) (np_zeros 1 7)).
  - reflexivity.
  - apply (shape_np_zeros 4 7).
  - reflexivity.
  - apply (shape_np_zeros 4 7).
  - reflexivity.
  - apply (shape_np_zeros 1 7).
Defined.

(** C3 (as stated) fails: a solver reporting the status inaccurate-optimal,
    which is not the status optimal, makes [solve_linear_mpc] return the
    solver's values, not None, and print nothing. *)
Lemma inaccurate_optimal_is_accepted :
  let osqp := constant_solver OPTIMAL_INACCURATE in
  let run := solve_linear_mpc osqp 0%nat 1%nat [0; 0; 0; 0] 2%nat
               example_world in
  (forall q, prob_status (osqp q) <> OPTIMAL)
  /\ fst run = Ok (Some (replicate 6 0), Some (replicate 6 0),
                   Some (replicate 7 0), Some (replicate 7 0),
                   Some (replicate 7 0), Some (replicate 7 0))
  /\ fst run <> Ok no_trajectory
  /\ stdout (snd run) = [].
Proof.
  intros osqp run.
  destruct (solve_linear_mpc_spec osqp 0%nat 1%nat [0; 0; 0; 0] 2%nat
              example_world (np_zeros 4 7) (np_zeros 4 7) (np_zeros 1 7))
    as (q & Hrun);
    try reflexivity; try apply (shape_np_zeros 4 7);
    try apply (shape_np_zeros 1 7).
  subst run. rewrite Hrun. cbn.
  repeat split; try discriminate. 
Qed.

(** ** SpeedProfile *)

Lemma forR_invariant {St I : Type} (P : nat -> St -> Prop)
  (items : list I) (body : I -> St -> result St) (st : St) :
  P 0%nat st ->
  (forall k i st, items !! k = Some i -> P k st ->
     exists st', body i st = Ok st' /\ P (S k) st') ->
  exists st', forR items body st = Ok st' /\ P (length items) st'.
Proof.
  revert P st. induction items as [|i items IH]; intros P st H0 Hstep.
  - cbn. eauto.
  - destruct (Hstep 0%nat i st eq_refl H0) as (st1 & Hb & H1).
    destruct (IH (fun k => P (S k)) st1 H1) as (st2 & Hf & H2).
    { intros k j st' Hk HP. apply (Hstep (S k) j st' Hk HP). }
    exists st2. split; [|exact H2]. cbn. rewrite Hb. exact Hf.
Qed.

Lemma Rneqb_true (a b : R) : a <> b -> Rneqb a b = true.
Proof. intros H. unfold Rneqb. now destruct (Req_dec_T a b). Qed.

Lemma Rneqb_false (a b : R) : a = b -> Rneqb a b = false.
Proof. intros H. unfold Rneqb. now destruct (Req_dec_T a b). Qed.

Lemma segment_classified_insert (cx cy cyaw sp : vector) (ts a : R)
  (i k : nat) :
  (i < k)%nat ->
  segment_classified cx cy cyaw sp ts i ->
  segment_classified cx cy cyaw (<[k := a]> sp) ts i.
Proof.
  intros Hik H x0 x1 y0 y1 yaw Hx0 Hx1 Hy0 Hy1 Hyaw dx dy.
  destruct (H x0 x1 y0 y1 yaw Hx0 Hx1 Hy0 Hy1 Hyaw) as [H1 H2].
  rewrite list_lookup_insert_ne by lia. split; [exact H1|].
  intros Hz. rewrite (H2 Hz). destruct i as [|j]; [reflexivity|].
  rewrite list_lookup_insert_ne by lia. reflexivity.
Qed.

Lemma py_setitem_last {A : Type} (l : list A) (a : A) :
  (0 < length l)%nat ->
  py_setitem l (-1) a = Ok (<[(length l - 1)%nat := a]> l).
Proof.
  intros H. unfold py_setitem, py_len. cbn [Z.ltb Z.compare].
  destruct (Z.ltb_spec (-1 + Z.of_nat (length l)) 0) as [?|_]; [lia|].
  destruct (Z.ltb_spec (-1 + Z.of_nat (length l)) (Z.of_nat (length l)))
    as [_|?]; [|lia].
  do 2 f_equal. lia.
Qed.

Lemma calc_speed_profile_spec (cx cy cyaw : vector) (ts : R) :
  length cy = length cx -> length cyaw = length cx ->
  (0 < length cx)%nat ->
  exists sp,
    calc_speed_profile cx cy cyaw ts = Ok sp
    /\ length sp = length cx
    /\ sp !! (length cx - 1)%nat = Some 0.0
    /\ forall i, (S i < length cx)%nat -> segment_classified cx cy cyaw sp ts i.
Proof.
  intros Hcy Hcyaw Hpos. unfold calc_speed_profile.
  set (n := length cx) in *.
  match goal with |- context [forR ?items ?body ?st] =>
    destruct (forR_invariant
      (fun k '(direction, sp) =>
         length sp = n
         /\ (forall i, (i < k)%nat -> segment_classified cx cy cyaw sp ts i)
         /\ match k with
            | O => direction = 1.0
            | S j => (direction = 1.0 /\ sp !! j = Some ts)
                     \/ (direction = - 1.0 /\ sp !! j = Some (- ts))
            end)
      items body st) as ([dir sp] & Hloop & Hlen & Hseg & _)
  end.
  { split; [apply length_replicate|]. split; [|reflexivity]. intros i Hi. lia. }
  { intros k i [dir sp] Hk (Hlen & Hseg & Hdir).
    apply py_range_lookup in Hk as [-> Hk]. unfold py_len in Hk. fold n in Hk.
    destruct (py_index_ok cx (Z.of_nat k + 1)) as (x1 & -> & Hx1);
      [unfold py_len; lia|].
    destruct (py_index_ok cx (Z.of_nat k)) as (x0 & -> & Hx0);
      [unfold py_len; lia|].
    destruct (py_index_ok cy (Z.of_nat k + 1)) as (y1 & -> & Hy1);
      [unfold py_len; lia|].
    destruct (py_index_ok cy (Z.of_nat k)) as (y0 & -> & Hy0);
      [unfold py_len; lia|].
    destruct (py_index_ok cyaw (Z.of_nat k)) as (yaw & Hyaw' & Hyaw);
      [unfold py_len; lia|].
    replace (Z.to_nat (Z.of_nat k + 1)) with (S k) in * by lia.
    rewrite Nat2Z.id in *.
    cbn [bindR].
    set (dx := x1 - x0). set (dy := y1 - y0).
    set (dangle := Rabs (pi_2_pi (atan2 dy dx - yaw))).
    (* the direction after this segment and the speed written at k *)
    assert (Hbody : exists dir' val,
      (let? direction :=
         if Rneqb dx 0.0 && Rneqb dy 0.0
         then let? cyawi := py_index cyaw (Z.of_nat k) in
              if Rge_dec (Rabs (pi_2_pi (atan2 dy dx - cyawi))) (PI / 4.0)
              then Ok (- 1.0) else Ok 1.0
         else Ok dir in
       let? speed_profile :=
         if Rneqb direction 1.0
         then py_setitem sp (Z.of_nat k) (- ts)
         else py_setitem sp (Z.of_nat k) ts in
       Ok (direction, speed_profile)) = Ok (dir', <[k := val]> sp)
      /\ ((dir' = 1.0 /\ val = ts) \/ (dir' = - 1.0 /\ val = - ts))
      /\ (dx <> 0 -> dy <> 0 ->
          val = if Rge_dec dangle (PI / 4) then - ts else ts)
      /\ (dx = 0 \/ dy = 0 -> dir' = dir)).
    { assert (Hset : forall a, py_setitem sp (Z.of_nat k) a = Ok (<[k := a]> sp)).
      { intros a. rewrite py_setitem_ok by (unfold py_len; lia).
        now rewrite Nat2Z.id. }
      assert (Hm : Rneqb (- 1.0) 1.0 = true) by (apply Rneqb_true; lra).
      assert (Hp : Rneqb 1.0 1.0 = false) by now apply Rneqb_false.
      destruct (Req_dec dx 0) as [Hdx|Hdx].
      - rewrite (Rneqb_false dx 0.0) by lra. cbn [andb bindR].
        assert (Hkeep : exists val,
          (let? speed_profile :=
             if Rneqb dir 1.0 then py_setitem sp (Z.of_nat k) (- ts)
             else py_setitem sp (Z.of_nat k) ts in
           Ok (dir, speed_profile)) = Ok (dir, <[k := val]> sp)
          /\ ((dir = 1.0 /\ val = ts) \/ (dir = - 1.0 /\ val = - ts))).
        { destruct k as [|j].
          - rewrite Hdir, Hp, Hset. cbn. eauto.
          - destruct Hdir as [[-> _]|[-> _]].
            + rewrite Hp, Hset. cbn. eauto.
            + rewrite Hm, Hset. cbn. eauto. }
        destruct Hkeep as (val & -> & Hval).
        exists dir, val. repeat split; try assumption; try reflexivity.
        intros Hc. contradiction.
      - destruct (Req_dec dy 0) as [Hdy|Hdy].
        + rewrite (Rneqb_false dy 0.0) by lra. rewrite andb_false_r.
          cbn [bindR].
          assert (Hkeep : exists val,
            (let? speed_profile :=
               if Rneqb dir 1.0 then py_setitem sp (Z.of_nat k) (- ts)
               else py_setitem sp (Z.of_nat k) ts in
             Ok (dir, speed_profile)) = Ok (dir, <[k := val]> sp)
            /\ ((dir = 1.0 /\ val = ts) \/ (dir = - 1.0 /\ val = - ts))).
          { destruct k as [|j].
            - rewrite Hdir, Hp, Hset. cbn. eauto.
            - destruct Hdir as [[-> _]|[-> _]].
              + rewrite Hp, Hset. cbn. eauto.
              + rewrite Hm, Hset. cbn. eauto. }
          destruct Hkeep as (val & -> & Hval).
          exists dir, val. repeat split; try assumption; try reflexivity.
          intros _ Hc. contradiction.
        + rewrite (Rneqb_true dx 0.0), (Rneqb_true dy 0.0) by lra.
          cbn [andb]. rewrite Hyaw'. cbn [bindR]. fold dangle.
          assert (Hpi := PI_RGT_0).
          destruct (Rge_dec dangle (PI / 4.0)) as [Hge|Hlt];
            destruct (Rge_dec dangle (PI / 4)) as [Hge'|Hlt']; try lra;
            cbn [bindR].
          * rewrite Hm, Hset. cbn. eexists _, _. split; [reflexivity|].
            split; [right; split; reflexivity|]. split; [reflexivity|].
            intros [?|?]; contradiction.
          * rewrite Hp, Hset. cbn. eexists _, _. split; [reflexivity|].
            split; [left; split; reflexivity|]. split; [reflexivity|].
            intros [?|?]; contradiction. }
    destruct Hbody as (dir' & val & -> & Hlink & Hguard & Hkeep).
    eexists. split; [reflexivity|]. cbn beta iota.
    split; [now rewrite length_insert|]. split.
    - intros i Hi. destruct (decide (i = k)) as [->|Hne].
      + intros x0' x1' y0' y1' yaw' Ex0 Ex1 Ey0 Ey1 Eyaw.
        rewrite Hx0 in Ex0. rewrite Hx1 in Ex1. rewrite Hy0 in Ey0.
        rewrite Hy1 in Ey1. rewrite Hyaw in Eyaw.
        injection Ex0 as <-. injection Ex1 as <-. injection Ey0 as <-.
        injection Ey1 as <-. injection Eyaw as <-.
        cbn zeta. fold dx dy dangle.
        rewrite list_lookup_insert_eq by lia. split.
        * intros Hdx Hdy. now rewrite (Hguard Hdx Hdy).
        * intros Hz. specialize (Hkeep Hz). subst dir'.
          destruct k as [|j].
          -- destruct Hlink as [[_ ->]|[Hd _]]; [reflexivity|]. lra.
          -- rewrite list_lookup_insert_ne by lia.
             destruct Hdir as [[Hd Hs]|[Hd Hs]];
               destruct Hlink as [[Hd' ->]|[Hd' ->]];
               try (rewrite Hs; reflexivity); lra.
      + apply segment_classified_insert; [lia|]. apply Hseg. lia.
    - rewrite list_lookup_insert_eq by lia.
      destruct Hlink as [[-> ->]|[-> ->]]; [left|right]; split; reflexivity. }
  rewrite Hloop. cbn [bindR].
  rewrite py_setitem_last by lia. cbn [bindR].
  eexists. split; [reflexivity|]. rewrite length_insert, Hlen.
  split; [reflexivity|]. split.
  - apply list_lookup_insert_eq. lia.
  - intros i Hi. apply segment_classified_insert; [lia|]. apply Hseg.
    unfold py_range. rewrite length_map, length_seq. unfold py_len. lia.
Qed.






(** ** HorizonReferenceExtractor *)

Lemma py_round_nonneg (x : R) : 0 <= x -> (0 <= py_round x)%Z.
Proof.
  intros Hx. unfold py_round.
  assert (H0 : (0 <= Zfloor x)%Z) by (apply Zfloor_lub; exact Hx).
  destruct (Rlt_dec _ _); [exact H0|].
  destruct (Rlt_dec _ _); [lia|].
  destruct (Z.even _); lia.
Qed.

Lemma lift_set2 {S : Type} (l : vector) (idx : Z) (m : ndarray) (r c : nat)
  (i j : Z) (a : R) (s : S) :
  py_index l idx = Ok a ->
  shape m r c ->
  (0 <= i < Z.of_nat r)%Z -> (0 <= j < Z.of_nat c)%Z ->
  lift (let? c := py_index l idx in np_set2 m i j c) s
  = (Ok (alter (<[Z.to_nat j := a]>) (Z.to_nat i) m), s).
Proof.
  intros Ha Hs Hi Hj. unfold lift. rewrite Ha. cbn [bindR].
  now rewrite (np_set2_ok m r c i j a Hs Hi Hj).
Qed.

Lemma rounding_exact : rounding (fun x => x).
Proof. repeat split; auto. Qed.

Lemma rounding_nonneg (fl : R -> R) (x : R) :
  rounding fl -> 0 <= x -> 0 <= fl x.
Proof. intros (Hm & _ & H0) Hx. rewrite <- H0. now apply Hm. Qed.

Lemma travel_after_nonneg (fl : R -> R) (v : R) (k : nat) :
  rounding fl -> 0 <= travel_after fl v k.
Proof.
  intros Hfl. induction k as [|k IH]; cbn [travel_after]; [lra|].
  apply (rounding_nonneg fl _ Hfl).
  assert (0 <= fl P.dt) by (apply (rounding_nonneg fl _ Hfl); unfold P.dt; lra).
  assert (0 <= fl (Rabs v * fl P.dt)).
  { apply (rounding_nonneg fl _ Hfl). apply Rmult_le_pos; [apply Rabs_pos|].
    assumption. }
  lra.
Qed.

Lemma travel_after_mono (fl : R -> R) (v : R) (i j : nat) :
  rounding fl -> (i <= j)%nat -> travel_after fl v i <= travel_after fl v j.
Proof.
  intros Hfl Hij. induction Hij as [|j _ IH]; [lra|].
  apply Rle_trans with (1 := IH). cbn [travel_after].
  pose proof Hfl as (Hm & Hi & H0).
  assert (Hfix : fl (travel_after fl v j) = travel_after fl v j).
  { destruct j; cbn [travel_after]; [|apply Hi].
    replace 0.0 with 0 by lra. exact H0. }
  rewrite <- Hfix at 1. apply Hm.
  assert (0 <= fl (Rabs v * fl P.dt)).
  { apply (rounding_nonneg fl _ Hfl). apply Rmult_le_pos; [apply Rabs_pos|].
    apply (rounding_nonneg fl _ Hfl). unfold P.dt. lra. }
  lra.
Qed.

Lemma travel_after_rest (fl : R -> R) (k : nat) :
  rounding fl -> travel_after fl 0 k = 0.
Proof.
  intros (_ & _ & H0). induction k as [|k IH]; cbn [travel_after]; [lra|].
  rewrite IH, Rabs_R0, Rmult_0_l, H0, Rplus_0_l. exact H0.
Qed.

Lemma travel_after_exact (v : R) (k : nat) :
  travel_after (fun x => x) v k = INR k * (Rabs v * P.dt).
Proof.
  induction k as [|k IH]; [cbn; lra|].
  cbn [travel_after]. rewrite IH, S_INR. lra.
Qed.

Lemma rounded_offset_nonneg (fl : R -> R) (v dl : R) (k : nat) :
  rounding fl -> 0 < dl -> 0 <= fl (travel_after fl v k / dl).
Proof.
  intros Hfl Hdl. apply (rounding_nonneg fl _ Hfl).
  apply Rmult_le_pos; [now apply travel_after_nonneg|].
  left. now apply Rinv_0_lt_compat.
Qed.

Lemma calc_optimal_trajectory_fl_spec (fl : R -> R) (node : Node.t)
  (p : PATH.t) (sp : vector) (dl : R) :
  rounding fl ->
  path_wf p ->
  (0 <= PATH.ind_old p <= PATH.length p - 1)%Z ->
  py_len sp = PATH.length p ->
  0 < dl ->
  exists ind d z_opt d_opt,
    PATH.nearest_index node p = (Ok (ind, d), PATH.set_ind_old p ind)
    /\ calc_optimal_trajectory_in_T_step_fl fl node sp dl p
       = (Ok (z_opt, ind, d_opt), PATH.set_ind_old p ind)
    /\ shape z_opt 4 7 /\ shape d_opt 1 7
    /\ forall i, (i < 7)%nat ->
         let travel := travel_after fl (Node.v node) (S i) in
         let index :=
           Z.min (ind + py_round (fl (travel / dl))) (PATH.length p - 1) in
         (0 <= index <= PATH.length p - 1)%Z
         /\ entry d_opt 0 i = Some 0.0
         /\ exists x y s yaw,
              py_index (PATH.cx p) index = Ok x
              /\ py_index (PATH.cy p) index = Ok y
              /\ py_index sp index = Ok s
              /\ py_index (PATH.cyaw p) index = Ok yaw
              /\ column4 z_opt i = [Some x; Some y; Some s; Some yaw].
Proof.
  intros Hfl Hwf Hc Hsp Hdl.
  destruct (nearest_index_ok p node Hwf Hc) as (ind & d & Hnear & Hind).
  destruct Hwf as (Hx & Hy & Hw).
  set (p' := PATH.set_ind_old p ind) in *.
  set (len := PATH.length p) in *.
  assert (Hidx : forall index, (0 <= index <= len - 1)%Z ->
            exists x y s yaw,
              py_index (PATH.cx p) index = Ok x
              /\ py_index (PATH.cy p) index = Ok y
              /\ py_index sp index = Ok s
              /\ py_index (PATH.cyaw p) index = Ok yaw).
  { intros index Hi.
    destruct (py_index_ok (PATH.cx p) index) as (x & ? & _); [lia|].
    destruct (py_index_ok (PATH.cy p) index) as (y & ? & _); [lia|].
    destruct (py_index_ok sp index) as (s & ? & _); [lia|].
    destruct (py_index_ok (PATH.cyaw p) index) as (yaw & ? & _); [lia|].
    eauto 10. }
  exists ind, d.
  unfold calc_optimal_trajectory_in_T_step_fl.
  rewrite (bind_ok _ _ p p p) by reflexivity.
  rewrite (bind_ok _ _ p p' (ind, d) Hnear). cbv beta iota. fold len.
  (* the writes of column 0 before the loop *)
  destruct (Hidx ind ltac:(lia)) as (xi & yi & si & wi & Hxi & Hyi & Hsi & Hwi).
  pose proof (shape_np_zeros P.NX (P.T + 1)) as Hz0.
  change (Z.to_nat P.NX) with 4%nat in Hz0.
  change (Z.to_nat (P.T + 1)) with 7%nat in Hz0.
  pose proof (shape_np_zeros 1 (P.T + 1)) as Hd0.
  change (Z.to_nat 1) with 1%nat in Hd0.
  change (Z.to_nat (P.T + 1)) with 7%nat in Hd0.
  erewrite bind_ok
    by (eapply (lift_set2 _ _ _ 4 7); [eassumption|eassumption|lia|lia]).
  erewrite bind_ok
    by (eapply (lift_set2 _ _ _ 4 7);
        [eassumption|repeat apply shape_alter; eassumption|lia|lia]).
  erewrite bind_ok
    by (eapply (lift_set2 _ _ _ 4 7);
        [eassumption|repeat apply shape_alter; eassumption|lia|lia]).
  erewrite bind_ok
    by (eapply (lift_set2 _ _ _ 4 7);
        [eassumption|repeat apply shape_alter; eassumption|lia|lia]).
  erewrite bind_ok
    by (unfold lift; erewrite (np_set2_ok _ 1 7);
        [reflexivity|eassumption|lia|lia]).
  cbv beta.
  match goal with |- context [for_ ?items ?body (?t0, ?zo0, ?do0)] =>
    assert (Hzs : shape zo0 4 7) by (repeat apply shape_alter; exact Hz0);
    assert (Hds : shape do0 1 7) by (repeat apply shape_alter; exact Hd0);
    destruct (for_invariant
      (fun k '(travel, z_opt, d_opt) s =>
         s = p'
         /\ travel = travel_after fl (Node.v node) k
         /\ shape z_opt 4 7 /\ shape d_opt 1 7
         /\ forall i, (i < k)%nat ->
              let travel := travel_after fl (Node.v node) (S i) in
              let index := Z.min (ind + py_round (fl (travel / dl))) (len - 1) in
              (0 <= index <= len - 1)%Z
              /\ entry d_opt 0 i = Some 0.0
              /\ exists x y s yaw,
                   py_index (PATH.cx p) index = Ok x
                   /\ py_index (PATH.cy p) index = Ok y
                   /\ py_index sp index = Ok s
                   /\ py_index (PATH.cyaw p) index = Ok yaw
                   /\ column4 z_opt i = [Some x; Some y; Some s; Some yaw])
      items body (t0, zo0, do0) p')
      as ([[tr zo] dd] & s' & Hloop & -> & _ & Hzo & Hdd & Hcols)
  end.
  { split; [reflexivity|]. split; [reflexivity|]. split; [exact Hzs|].
    split; [exact Hds|]. intros i Hi. lia. }
  { intros k i [[tr zo] dd] s Hk (-> & -> & Hzo & Hdd & Hcols).
    apply py_range_lookup in Hk as [-> Hk]. unfold P.T in Hk.
    set (tr := fl (travel_after fl (Node.v node) k
                   + fl (Rabs (Node.v node) * fl P.dt))).
    assert (Htr : tr = travel_after fl (Node.v node) (S k)) by reflexivity.
    assert (Htr0 : 0 <= fl (tr / dl)).
    { rewrite Htr. now apply rounded_offset_nonneg. }
    pose proof (py_round_nonneg (fl (tr / dl)) Htr0) as Hr.
    set (index := Z.min (ind + py_round (fl (tr / dl))) (len - 1)) in *.
    assert (Hin : (0 <= index <= len - 1)%Z) by (unfold index; lia).
    destruct (Hidx index Hin) as (x & y & s & yaw & Ex & Ey & Es & Eyaw).
    cbv beta iota. fold tr.
    rewrite (bind_ok _ _ p' p' (tr / dl)).
    2:{ unfold lift, py_div. destruct (Req_dec_T dl 0); [lra|reflexivity]. }
    cbv beta. fold index.
    erewrite bind_ok
      by (eapply (lift_set2 _ _ _ 4 7); [eassumption|eassumption|lia|lia]).
    erewrite bind_ok
      by (eapply (lift_set2 _ _ _ 4 7);
          [eassumption|repeat apply shape_alter; eassumption|lia|lia]).
    erewrite bind_ok
      by (eapply (lift_set2 _ _ _ 4 7);
          [eassumption|repeat apply shape_alter; eassumption|lia|lia]).
    erewrite bind_ok
      by (eapply (lift_set2 _ _ _ 4 7);
          [eassumption|repeat apply shape_alter; eassumption|lia|lia]).
    erewrite bind_ok
      by (unfold lift; erewrite (np_set2_ok _ 1 7);
          [reflexivity|eassumption|lia|lia]).
    rewrite Nat2Z.id.
    change (Z.to_nat 0) with 0%nat. change (Z.to_nat 1) with 1%nat.
    change (Z.to_nat 2) with 2%nat. change (Z.to_nat 3) with 3%nat.
    match goal with |- exists st' s', ret (_, ?m, ?dm) _ = _ /\ _ =>
      change m with (set_column4 zo k x y s yaw)
    end.
    eexists (_, _, _), p'. split; [reflexivity|]. cbv beta iota.
    split; [reflexivity|]. split; [exact Htr|].
    split; [now apply shape_set_column4|]. split; [now apply shape_alter|].
    intros i Hi. cbv zeta.
    destruct (decide (i = k)) as [->|Hne].
    - rewrite <- Htr. fold index. split; [exact Hin|]. split.
      + rewrite (entry_alter dd 1 7) by (assumption || lia).
        case_decide as Hdec; [reflexivity|]. lia.
      + exists x, y, s, yaw. repeat split; try assumption.
        now rewrite (column4_set_column4 zo 7) by (assumption || lia).
    - destruct (Hcols i ltac:(lia)) as (Hb & He & x' & y' & s'' & yaw' & H).
      split; [exact Hb|]. split.
      + rewrite (entry_alter dd 1 7) by (assumption || lia).
        case_decide as Hdec; [lia|exact He].
      + exists x', y', s'', yaw'.
        rewrite (column4_set_column4_ne zo 7) by (assumption || lia).
        exact H. }
  rewrite (bind_ok _ _ _ _ _ Hloop). cbv beta iota.
  exists zo, dd. split; [exact Hnear|]. split; [reflexivity|].
  split; [exact Hzo|]. split; [exact Hdd|].
  intros i Hi. apply Hcols.
  unfold py_range. rewrite length_map, length_seq. unfold P.T. lia.
Qed.

Lemma calc_optimal_trajectory_spec (node : Node.t) (p : PATH.t) (sp : vector)
  (dl : R) :
  path_wf p ->
  (0 <= PATH.ind_old p <= PATH.length p - 1)%Z ->
  py_len sp = PATH.length p ->
  0 < dl ->
  exists ind d z_opt d_opt,
    PATH.nearest_index node p = (Ok (ind, d), PATH.set_ind_old p ind)
    /\ calc_optimal_trajectory_in_T_step node sp dl p
       = (Ok (z_opt, ind, d_opt), PATH.set_ind_old p ind)
    /\ shape z_opt 4 7 /\ shape d_opt 1 7
    /\ forall i, (i < 7)%nat ->
         let travel := INR (S i) * (Rabs (Node.v node) * P.dt) in
         let index := Z.min (ind + py_round (travel / dl)) (PATH.length p - 1) in
         (0 <= index <= PATH.length p - 1)%Z
         /\ entry d_opt 0 i = Some 0.0
         /\ exists x y s yaw,
              py_index (PATH.cx p) index = Ok x
              /\ py_index (PATH.cy p) index = Ok y
              /\ py_index sp index = Ok s
              /\ py_index (PATH.cyaw p) index = Ok yaw
              /\ column4 z_opt i = [Some x; Some y; Some s; Some yaw].
Proof.
  intros Hwf Hc Hsp Hdl.
  destruct (calc_optimal_trajectory_fl_spec (fun x => x) node p sp dl
              rounding_exact Hwf Hc Hsp Hdl)
    as (ind & d & z_opt & d_opt & Hnear & Hrun & Hzs & Hds & Hcols).
  exists ind, d, z_opt, d_opt.
  split; [exact Hnear|]. split; [exact Hrun|].
  split; [exact Hzs|]. split; [exact Hds|].
  intros i Hi. specialize (Hcols i Hi). cbv zeta beta in Hcols.
  rewrite travel_after_exact in Hcols. exact Hcols.
Qed.

(** C5. On a well-formed path with the cursor in range, a speed profile of
    the path's length and a positive sample spacing,
    [calc_optimal_trajectory_in_T_step] returns, whatever the rounding of
    its float operations; column i of [z_opt], for every 0 <= i <= T, is
    the sample (x, y, target speed, yaw) at index
    min(ind + round(travel / dl), length - 1), where [ind] is the index
    [nearest_index] returns and [travel] is the cumulative travel as the
    loop computes it, incremented by |v| * dt once per step including step
    0; that index is within the path, and [d_opt] is 0 in every column. *)
Theorem horizon_reference_columns (fl : R -> R) (node : Node.t) (p : PATH.t)
  (sp : vector) (dl : R) :
  rounding fl ->
  path_wf p ->
  (0 <= PATH.ind_old p <= PATH.length p - 1)%Z ->
  py_len sp = PATH.length p ->
  0 < dl ->
  exists ind d z_opt d_opt p',
    PATH.nearest_index node p = (Ok (ind, d), p')
    /\ calc_optimal_trajectory_in_T_step_fl fl node sp dl p
       = (Ok (z_opt, ind, d_opt), p')
    /\ forall i, (i <= Z.to_nat P.T)%nat ->
         let travel := travel_after fl (Node.v node) (S i) in
         let index :=
           Z.min (ind + py_round (fl (travel / dl))) (PATH.length p - 1) in
         (0 <= index <= PATH.length p - 1)%Z
         /\ entry d_opt 0 i = Some 0.0
         /\ exists x y s yaw,
              py_index (PATH.cx p) index = Ok x
              /\ py_index (PATH.cy p) index = Ok y
              /\ py_index sp index = Ok s
              /\ py_index (PATH.cyaw p) index = Ok yaw
              /\ column4 z_opt i = [Some x; Some y; Some s; Some yaw].
Proof.
  intros Hfl Hwf Hc Hsp Hdl.
  destruct (calc_optimal_trajectory_fl_spec fl node p sp dl Hfl Hwf Hc Hsp Hdl)
    as (ind & d & z_opt & d_opt & Hnear & Hrun & _ & _ & Hcols).
  exists ind, d, z_opt, d_opt, (PATH.set_ind_old p ind).
  split; [exact Hnear|]. split; [exact Hrun|].
  intros i Hi. apply Hcols. unfold P.T in Hi. lia.
Qed.

(** ** MPCIterationController *)

Lemma for_break_invariant {S St I : Type} (P Q : nat -> St -> S -> Prop)
  (items : list I) (body : I -> St -> M S (ctl * St)) (st : St) (s : S) :
  P 0%nat st s ->
  (forall k i st s, items !! k = Some i -> P k st s ->
     exists c st' s',
       body i st s = (Ok (c, st'), s')
       /\ match c with
          | Continue => P (Datatypes.S k) st' s'
          | Break => Q (Datatypes.S k) st' s'
          end) ->
  exists c st' s',
    for_break items body st s = (Ok (c, st'), s')
    /\ match c with
       | Continue => P (length items) st' s'
       | Break => exists n, (1 <= n <= length items)%nat /\ Q n st' s'
       end.
Proof.
  revert P Q st s. induction items as [|i items IH]; intros P Q st s H0 Hstep.
  - exists Continue, st, s. split; [reflexivity|exact H0].
  - destruct (Hstep 0%nat i st s eq_refl H0) as (c & st1 & s1 & Hb & H1).
    destruct c.
    + exists Break, st1, s1. split.
      * cbn. rewrite (bind_ok _ _ _ _ _ Hb). reflexivity.
      * exists 1%nat. split; [cbn; lia|exact H1].
    + destruct (IH (fun k => P (Datatypes.S k)) (fun k => Q (Datatypes.S k))
                  st1 s1 H1) as (c & st2 & s2 & Hf & H2).
      { intros k j st' s' Hk HP. apply (Hstep (Datatypes.S k) j st' s' Hk HP). }
      exists c, st2, s2. split.
      * cbn. rewrite (bind_ok _ _ _ _ _ Hb). exact Hf.
      * destruct c; [|exact H2].
        destruct H2 as (n & Hn & HQ). exists (Datatypes.S n).
        split; [cbn; lia|exact HQ].
Qed.

Lemma unpack_good (out : solver_output) :
  good_output out ->
  exists ox oy ov oyaw,
    length (fst (controls out)) = 6%nat
    /\ length (snd (controls out)) = 6%nat
    /\ unpack out = Ok (Some (fst (controls out)), Some (snd (controls out)),
                        Some ox, Some oy, Some oyaw, Some ov).
Proof.
  intros (_ & [Hzl Hzr] & [Hul Hur]). unfold unpack, controls.
  destruct (z_value out) as [|ox [|oy [|ov [|oyaw [|]]]]]; try discriminate.
  destruct (u_value out) as [|oa [|od [|]]]; try discriminate.
  inversion Hur as [|? ? Ha Hur']. inversion Hur' as [|? ? Hd _]. subst.
  exists ox, oy, ov, oyaw. cbn. auto.
Qed.

Lemma mpc_iteration_spec (osqp : solver) (z_opt : loc) (x0 y0 v0 yaw0 : R)
  (d_opt : loc) (zo d : ndarray) (i : Z) (a dl : vector)
  (r1 r2 r3 r4 : option vector) (s : world) :
  heap s !! z_opt = Some zo -> shape zo 4 7 ->
  heap s !! d_opt = Some d -> shape d 1 7 ->
  length a = 6%nat -> length dl = 6%nat ->
  (forall q, good_output (osqp q)) ->
  exists q zb l ox oy oyaw ov,
    let c := controls (osqp q) in
    let tr := (Some (fst c), Some (snd c), ox, oy, oyaw, ov) in
    unpack (osqp q) = Ok tr
    /\ length (fst c) = 6%nat /\ length (snd c) = 6%nat
    /\ heap s !! l = None
    /\ mpc_iteration osqp z_opt [x0; y0; v0; yaw0] d_opt i
         (Some a, Some dl, r1, r2, r3, r4) s
       = (Ok (if Rle_dec (control_change (a, dl) c) P.DU_TH
              then Break else Continue, tr),
          mk_world (<[l := zb]> (heap s)) (stdout s) (solved s ++ [q])).
Proof.
  intros Hzo Hso Hd Hsd Ha Hdl Hgood.
  destruct (predict_model_spec x0 y0 v0 yaw0 a dl z_opt zo s Hzo Hso)
    as (zb & Hpred & Hsb & _).
  set (l := fresh (dom (heap s))) in *.
  assert (Hfresh : heap s !! l = None).
  { apply not_elem_of_dom. apply is_fresh. }
  set (s1 := set_heap s (<[l := zb]> (heap s))) in *.
  destruct (solve_linear_mpc_spec osqp z_opt l [x0; y0; v0; yaw0] d_opt s1
              zo zb d) as (q & Hsolve); try assumption.
  { cbn. rewrite lookup_insert_ne; [exact Hzo|congruence]. }
  { cbn. apply lookup_insert_eq. }
  { cbn. rewrite lookup_insert_ne; [exact Hd|congruence]. }
  destruct (Hgood q) as (Hok & Hgz & Hgu).
  rewrite Hok in Hsolve.
  destruct (unpack_good (osqp q) (Hgood q))
    as (ox & oy & ov & oyaw & Hla & Hld & Hun).
  rewrite Hun in Hsolve.
  exists q, zb, l, (Some ox), (Some oy), (Some oyaw), (Some ov).
  cbv zeta. split; [exact Hun|]. split; [exact Hla|]. split; [exact Hld|].
  split; [exact Hfresh|].
  unfold mpc_iteration.
  rewrite (bind_ok _ _ _ _ _ Hpred).
  rewrite (bind_ok _ _ s1 s1 a) by reflexivity.
  rewrite (bind_ok _ _ s1 s1 dl) by reflexivity.
  rewrite (bind_ok _ _ _ _ _ Hsolve). cbv beta iota.
  set (c := controls (osqp q)) in *.
  erewrite bind_ok
    by (unfold lift, np_sub; rewrite np_broadcast2_same by lia; reflexivity).
  erewrite bind_ok
    by (unfold lift, np_sub; rewrite np_broadcast2_same by lia; reflexivity).
  cbv beta.
  change (py_sum (map Rabs (zip_with Rminus (fst c) a))
          + py_sum (map Rabs (zip_with Rminus (snd c) dl)))
    with (control_change (a, dl) c).
  destruct (Rle_dec (control_change (a, dl) c) P.DU_TH); reflexivity.
Qed.

(** *** Counting the problems handed to the solver *)


















(** *** The outer loop *)

Lemma candidates_length (osqp : solver) (start : vector * vector)
  (qs : list QP) :
  length (candidates osqp start qs) = S (length qs).
Proof. unfold candidates. cbn. now rewrite length_map. Qed.

Lemma candidates_snoc (osqp : solver) (start : vector * vector)
  (qs : list QP) (q : QP) :
  candidates osqp start (qs ++ [q])
  = candidates osqp start qs ++ [controls (osqp q)].
Proof. unfold candidates. now rewrite map_app. Qed.

Lemma candidates_snoc_lookup (osqp : solver) (start : vector * vector)
  (qs : list QP) (q : QP) (j : nat) :
  (j <= length qs)%nat ->
  candidates osqp start (qs ++ [q]) !! j = candidates osqp start qs !! j.
Proof.
  intros Hj. rewrite candidates_snoc. apply lookup_app_l.
  rewrite candidates_length. lia.
Qed.

Lemma candidates_snoc_last (osqp : solver) (start : vector * vector)
  (qs : list QP) (q : QP) :
  candidates osqp start (qs ++ [q]) !! S (length qs)
  = Some (controls (osqp q)).
Proof.
  rewrite candidates_snoc.
  rewrite lookup_app_r by (rewrite candidates_length; lia).
  rewrite candidates_length. now rewrite Nat.sub_diag.
Qed.

Lemma linear_mpc_control_seed (osqp : solver) (z_opt : loc) (z0 : vector)
  (d_opt : loc) (oa od : option vector) :
  linear_mpc_control osqp z_opt z0 d_opt oa od
  = (let* (c, vars) :=
       for_break (py_range P.MAX_ITER) (mpc_iteration osqp z_opt z0 d_opt)
         (Some (fst (seed oa od)), Some (snd (seed oa od)),
          None, None, None, None) in
     let* _ := match c with
               | Continue => print "Iterative is max iter"
               | Break => ret tt
               end in
     ret vars).
Proof. unfold linear_mpc_control, seed. destruct oa, od; reflexivity. Qed.

Lemma linear_mpc_control_spec (osqp : solver) (z_opt : loc)
  (x0 y0 v0 yaw0 : R) (d_opt : loc) (oa od : option vector) (w : world)
  (zo d : ndarray) :
  heap w !! z_opt = Some zo -> shape zo 4 7 ->
  heap w !! d_opt = Some d -> shape d 1 7 ->
  length (fst (seed oa od)) = 6%nat -> length (snd (seed oa od)) = 6%nat ->
  (forall q, good_output (osqp q)) ->
  let run := linear_mpc_control osqp z_opt [x0; y0; v0; yaw0] d_opt oa od w in
  exists qs q tr,
    let cands := candidates osqp (seed oa od) qs in
    let n := length qs in
    (1 <= n <= Z.to_nat P.MAX_ITER)%nat
    /\ solved (snd run) = solved w ++ qs
    /\ last qs = Some q
    /\ fst run = Ok tr /\ unpack (osqp q) = Ok tr
    /\ (forall k prev cur, (S k < n)%nat ->
          cands !! k = Some prev -> cands !! S k = Some cur ->
          control_change prev cur > P.DU_TH)
    /\ exists prev cur,
         cands !! (n - 1)%nat = Some prev /\ cands !! n = Some cur
         /\ ((control_change prev cur <= P.DU_TH
              /\ stdout (snd run) = stdout w)
             \/ (n = Z.to_nat P.MAX_ITER
                 /\ control_change prev cur > P.DU_TH
                 /\ stdout (snd run)
                    = stdout w ++ ["Iterative is max iter"%string])).
Proof.
  intros Hzo Hso Hd Hsd Hla Hld Hgood run. subst run.
  rewrite linear_mpc_control_seed.
  set (sd := seed oa od) in *.
  set (base := fun (k : nat) (vars : trajectories) (s : world)
                   (qs : list QP) (cur : vector * vector) =>
    length qs = k
    /\ candidates osqp sd qs !! k = Some cur
    /\ (exists r1 r2 r3 r4,
          vars = (Some (fst cur), Some (snd cur), r1, r2, r3, r4))
    /\ length (fst cur) = 6%nat /\ length (snd cur) = 6%nat
    /\ solved s = solved w ++ qs /\ stdout s = stdout w
    /\ heap s !! z_opt = Some zo /\ heap s !! d_opt = Some d
    /\ (forall q, last qs = Some q -> unpack (osqp q) = Ok vars)
    /\ (forall j prev c', (S j < k)%nat ->
          candidates osqp sd qs !! j = Some prev ->
          candidates osqp sd qs !! S j = Some c' ->
          control_change prev c' > P.DU_TH)).
  destruct (for_break_invariant
    (fun k vars s => exists qs cur,
       base k vars s qs cur
       /\ forall prev, (1 <= k)%nat ->
            candidates osqp sd qs !! (k - 1)%nat = Some prev ->
            control_change prev cur > P.DU_TH)
    (fun k vars s => exists qs cur,
       base k vars s qs cur
       /\ exists prev,
            candidates osqp sd qs !! (k - 1)%nat = Some prev
            /\ control_change prev cur <= P.DU_TH)
    (py_range P.MAX_ITER)
    (mpc_iteration osqp z_opt [x0; y0; v0; yaw0] d_opt)
    (Some (fst sd), Some (snd sd), None, None, None, None) w)
    as (c & vars & s' & Hloop & Hend).
  { exists [], sd. split; [|intros prev Hk; lia].
    unfold base. repeat split; try assumption; try reflexivity.
    - eauto.
    - now rewrite app_nil_r.
    - intros q Hq. discriminate.
    - intros j prev c' Hj. lia. }
  { intros k i vars s Hk (qs & cur & Hbase & Hprev).
    destruct Hbase as (Hlen & Hcur & (r1 & r2 & r3 & r4 & ->) & Hl1 & Hl2
                       & Hsol & Hout & Hhz & Hhd & _ & Hearlier).
    destruct (mpc_iteration_spec osqp z_opt x0 y0 v0 yaw0 d_opt zo d i
                (fst cur) (snd cur) r1 r2 r3 r4 s Hhz Hso Hhd Hsd Hl1 Hl2 Hgood)
      as (q & zb & l & ox & oy & oyaw & ov & Hun & Hc1 & Hc2 & Hfresh & Hrun).
    cbv zeta in Hun, Hrun, Hc1, Hc2.
    rewrite <- surjective_pairing in Hrun.
    set (cn := controls (osqp q)) in *.
    set (tr := (Some (fst cn), Some (snd cn), ox, oy, oyaw, ov)) in *.
    set (s1 := mk_world (<[l := zb]> (heap s)) (stdout s) (solved s ++ [q]))
      in *.
    assert (Hb' : base (S k) tr s1 (qs ++ [q]) cn).
    { unfold base. split; [rewrite length_app; cbn; lia|].
      split; [rewrite <- Hlen; apply candidates_snoc_last|].
      split; [unfold tr; eauto|]. split; [exact Hc1|]. split; [exact Hc2|].
      split; [cbn; rewrite Hsol; now rewrite app_assoc|].
      split; [exact Hout|].
      split; [cbn; rewrite lookup_insert_ne; [exact Hhz|congruence]|].
      split; [cbn; rewrite lookup_insert_ne; [exact Hhd|congruence]|].
      split.
      - intros q' Hq'. rewrite last_snoc in Hq'. injection Hq' as <-.
        exact Hun.
      - intros j prev c' Hj Hp Hc'.
        rewrite candidates_snoc_lookup in Hp by lia.
        rewrite candidates_snoc_lookup in Hc' by lia.
        destruct (decide (S j = k)) as [Hjk|Hjk].
        + rewrite Hjk, Hcur in Hc'. injection Hc' as <-.
          apply Hprev; [lia|]. replace (k - 1)%nat with j by lia. exact Hp.
        + apply (Hearlier j prev c'); [lia|exact Hp|exact Hc']. }
    destruct (Rle_dec (control_change cur cn) P.DU_TH) as [Hle|Hgt].
    - exists Break, tr, s1. split; [exact Hrun|].
      exists (qs ++ [q]), cn. split; [exact Hb'|].
      exists cur. split; [|exact Hle].
      replace (S k - 1)%nat with k by lia.
      rewrite candidates_snoc_lookup by lia. exact Hcur.
    - exists Continue, tr, s1. split; [exact Hrun|].
      exists (qs ++ [q]), cn. split; [exact Hb'|].
      intros prev _ Hp. replace (S k - 1)%nat with k in Hp by lia.
      rewrite candidates_snoc_lookup in Hp by lia.
      rewrite Hcur in Hp. injection Hp as <-. lra. }
  assert (Hn5 : length (py_range P.MAX_ITER) = Z.to_nat P.MAX_ITER).
  { unfold py_range. now rewrite length_map, length_seq. }
  rewrite (bind_ok _ _ _ _ _ Hloop). cbv beta iota.
  destruct c.
  - (* converged *)
    destruct Hend as (n & Hn & qs & cur & Hbase & prev & Hp & Hle).
    destruct Hbase as (Hlen & Hcur & _ & _ & _ & Hsol & Hout & _ & _
                       & Hlast & Hearlier).
    destruct (last qs) as [q|] eqn:Hq.
    2:{ apply last_None in Hq. subst qs. cbn in Hlen. lia. }
    exists qs, q, vars. cbv zeta. rewrite Hlen.
    rewrite (bind_ok _ _ s' s' tt) by reflexivity. cbn [fst snd ret].
    split; [lia|]. split; [exact Hsol|]. split; [exact Hq|].
    split; [reflexivity|]. split; [now apply Hlast|].
    split; [exact Hearlier|].
    exists prev, cur. split; [exact Hp|]. split; [exact Hcur|].
    left. split; [exact Hle|exact Hout].
  - (* iteration cap *)
    destruct Hend as (qs & cur & Hbase & Hprev).
    destruct Hbase as (Hlen & Hcur & _ & _ & _ & Hsol & Hout & _ & _
                       & Hlast & Hearlier).
    rewrite Hn5 in *.
    destruct (last qs) as [q|] eqn:Hq.
    2:{ apply last_None in Hq. subst qs. cbn in Hlen. discriminate. }
    exists qs, q, vars. cbv zeta. rewrite Hlen.
    erewrite bind_ok by reflexivity. cbn [fst snd ret].
    split; [unfold P.MAX_ITER; lia|]. split; [exact Hsol|]. split; [exact Hq|].
    split; [reflexivity|]. split; [now apply Hlast|].
    split; [exact Hearlier|].
    destruct (lookup_lt_is_Some_2 (candidates osqp sd qs)
                (Z.to_nat P.MAX_ITER - 1)) as [prev Hp].
    { rewrite candidates_length. unfold P.MAX_ITER in *. lia. }
    exists prev, cur. split; [exact Hp|]. split; [exact Hcur|].
    right. split; [reflexivity|]. split; [apply Hprev; [unfold P.MAX_ITER; lia|exact Hp]|].
    cbn. now rewrite Hout.
Qed.


Lemma good_constant_solver (st : status) :
  solved_ok st = true -> forall q, good_output (constant_solver st q).
Proof.
  intros H q. split; [exact H|].
  split; [apply (shape_np_zeros 4 7)|apply (shape_np_zeros 2 6)].
Qed.


(** *** Solver failure *)

Lemma solve_linear_mpc_failing (osqp : solver) (z_opt z_bar : loc)
  (z0 : vector) (d_opt : loc) (s s' : world) (tr : trajectories) :
  (forall q, solved_ok (prob_status (osqp q)) = false) ->
  solve_linear_mpc osqp z_opt z_bar z0 d_opt s = (Ok tr, s') ->
  tr = no_trajectory.
Proof.
  intros Hfail. unfold solve_linear_mpc, bind, read, lift, call_solver.
  destruct (for_ _ _ _ _) as [[stages|e] s1]; [|discriminate].
  destruct (np_col _ _) as [term|e]; [|discriminate].
  fold (solved_ok (prob_status (osqp (mk_QP stages term z0)))).
  rewrite Hfail. cbn. now intros [= <- _].
Qed.

Lemma mpc_iteration_failing (osqp : solver) (z_opt : loc) (z0 : vector)
  (d_opt : loc) (i : Z) (a d : vector) (r1 r2 r3 r4 : option vector)
  (s : world) :
  (forall q, solved_ok (prob_status (osqp q)) = false) ->
  exists e s',
    mpc_iteration osqp z_opt z0 d_opt i (Some a, Some d, r1, r2, r3, r4) s
    = (Raise e, s').
Proof.
  intros Hfail. unfold mpc_iteration.
  destruct (predict_model z0 (Some a) (Some d) z_opt s) as [[l|e] s1] eqn:Hp.
  2:{ exists e, s1. now rewrite (bind_raise _ _ _ _ _ Hp). }
  rewrite (bind_ok _ _ _ _ _ Hp).
  rewrite (bind_ok _ _ s1 s1 a) by reflexivity.
  rewrite (bind_ok _ _ s1 s1 d) by reflexivity.
  destruct (solve_linear_mpc osqp z_opt l z0 d_opt s1) as [[tr|e] s2] eqn:Hs.
  2:{ exists e, s2. now rewrite (bind_raise _ _ _ _ _ Hs). }
  rewrite (bind_ok _ _ _ _ _ Hs).
  rewrite (solve_linear_mpc_failing _ _ _ _ _ _ _ _ Hfail Hs).
  exists TypeError, s2. reflexivity.
Qed.

Lemma linear_mpc_control_failing (osqp : solver) (z_opt : loc) (z0 : vector)
  (d_opt : loc) (oa od : option vector) (w : world) :
  (forall q, solved_ok (prob_status (osqp q)) = false) ->
  exists e, fst (linear_mpc_control osqp z_opt z0 d_opt oa od w) = Raise e.
Proof.
  intros Hfail. rewrite linear_mpc_control_seed.
  change (py_range P.MAX_ITER) with [0; 1; 2; 3; 4]%Z. cbn [for_break].
  destruct (mpc_iteration_failing osqp z_opt z0 d_opt 0
              (fst (seed oa od)) (snd (seed oa od)) None None None None w Hfail)
    as (e & s' & Hit).
  exists e. rewrite (bind_raise _ _ w s' e); [reflexivity|].
  now rewrite (bind_raise _ _ _ _ _ Hit).
Qed.

Lemma linear_mpc_control_type_error (osqp : solver) (z_opt : loc)
  (x0 y0 v0 yaw0 : R) (d_opt : loc) (oa od : option vector) (w : world)
  (zo d : ndarray) :
  (forall q, solved_ok (prob_status (osqp q)) = false) ->
  heap w !! z_opt = Some zo -> shape zo 4 7 ->
  heap w !! d_opt = Some d -> shape d 1 7 ->
  let run := linear_mpc_control osqp z_opt [x0; y0; v0; yaw0] d_opt oa od w in
  fst run = Raise TypeError
  /\ stdout (snd run) = stdout w ++ ["Cannot solve linear mpc"%string]
  /\ length (solved (snd run)) = S (length (solved w)).
Proof.
  intros Hfail Hzo Hso Hd Hsd run. subst run.
  rewrite linear_mpc_control_seed.
  change (py_range P.MAX_ITER) with [0; 1; 2; 3; 4]%Z. cbn [for_break].
  set (a := fst (seed oa od)). set (dl := snd (seed oa od)).
  destruct (predict_model_spec x0 y0 v0 yaw0 a dl z_opt zo w Hzo Hso)
    as (zb & Hpred & Hsb & _).
  set (l := fresh (dom (heap w))) in *.
  assert (Hfresh : heap w !! l = None).
  { apply not_elem_of_dom. apply is_fresh. }
  set (s1 := set_heap w (<[l := zb]> (heap w))) in *.
  destruct (solve_linear_mpc_spec osqp z_opt l [x0; y0; v0; yaw0] d_opt s1
              zo zb d) as (q & Hsolve); try assumption.
  { cbn. rewrite lookup_insert_ne; [exact Hzo|congruence]. }
  { cbn. apply lookup_insert_eq. }
  { cbn. rewrite lookup_insert_ne; [exact Hd|congruence]. }
  rewrite Hfail in Hsolve.
  match type of Hsolve with _ = (_, ?s) => set (s2 := s) in * end.
  assert (Hit : mpc_iteration osqp z_opt [x0; y0; v0; yaw0] d_opt 0
                  (Some a, Some dl, None, None, None, None) w
                = (Raise TypeError, s2)).
  { unfold mpc_iteration.
    rewrite (bind_ok _ _ _ _ _ Hpred).
    rewrite (bind_ok _ _ s1 s1 a) by reflexivity.
    rewrite (bind_ok _ _ s1 s1 dl) by reflexivity.
    rewrite (bind_ok _ _ _ _ _ Hsolve). reflexivity. }
  rewrite (bind_raise _ _ w s2 TypeError).
  2:{ now rewrite (bind_raise _ _ _ _ _ Hit). }
  cbn. split; [reflexivity|]. split; [reflexivity|].
  rewrite length_app. cbn. lia.
Qed.

Lemma main_tick_failing (osqp : solver) (sp : vector) (s : sim) :
  (forall q, solved_ok (prob_status (osqp q)) = false) ->
  let r := main_tick osqp sp s in
  (exists e, fst r = Raise e)
  /\ node (snd r) = node s /\ time (snd r) = time s
  /\ oa (snd r) = oa s /\ odelta (snd r) = odelta s.
Proof.
  intros Hfail r. subst r. unfold main_tick.
  rewrite (bind_ok _ _ s s s) by reflexivity.
  destruct (calc_optimal_trajectory_in_T_step (node s) sp 1.0 (ref_path s))
    as [[[[z_opt ind] d_opt]|e] p'] eqn:Hc.
  2:{ erewrite bind_raise by (unfold on_path; rewrite Hc; reflexivity).
      cbn. eauto 10. }
  erewrite bind_ok by (unfold on_path; rewrite Hc; reflexivity).
  cbv beta iota.
  erewrite bind_ok by reflexivity.
  erewrite bind_ok by reflexivity.
  cbv beta.
  match goal with |- context [linear_mpc_control osqp ?l1 ?z0 ?l2 ?a ?b] =>
    match goal with |- context [bind (on_world _) _ ?s1] =>
      destruct (linear_mpc_control_failing osqp l1 z0 l2 a b (the_world s1)
                  Hfail) as (e & He);
      destruct (linear_mpc_control osqp l1 z0 l2 a b (the_world s1))
        as [res w'] eqn:Hrun
    end
  end.
  cbn [fst] in He. subst res.
  erewrite bind_raise by (unfold on_world; rewrite Hrun; reflexivity).
  cbn. eauto 10.
Qed.

(** C1 (the code does otherwise). When the solver never reports an optimal
    or inaccurate-optimal status, [linear_mpc_control] does not return the
    empty result the caller tests for: every call raises, on well-shaped
    arrays a TypeError right after "Cannot solve linear mpc" is printed (the
    change of the controls is computed from None), and so does the tick of
    [main], which leaves the vehicle state and the clock as they were in
    place of applying zero acceleration and zero steering. *)
Theorem solver_failure_raises (osqp : solver) :
  (forall q, solved_ok (prob_status (osqp q)) = false) ->
  (forall z_opt z0 d_opt oa0 od0 w,
      exists e,
        fst (linear_mpc_control osqp z_opt z0 d_opt oa0 od0 w) = Raise e)
  /\ (forall z_opt x0 y0 v0 yaw0 d_opt oa0 od0 w zo d,
        heap w !! z_opt = Some zo -> shape zo 4 7 ->
        heap w !! d_opt = Some d -> shape d 1 7 ->
        let run :=
          linear_mpc_control osqp z_opt [x0; y0; v0; yaw0] d_opt oa0 od0 w in
        fst run = Raise TypeError
        /\ stdout (snd run) = stdout w ++ ["Cannot solve linear mpc"%string])
  /\ (forall sp s,
        let r := main_tick osqp sp s in
        (exists e, fst r = Raise e)
        /\ node (snd r) = node s /\ time (snd r) = time s
        /\ oa (snd r) = oa s /\ odelta (snd r) = odelta s).
Proof.
  intros Hfail. split; [|split].
  - intros. now apply linear_mpc_control_failing.
  - intros z_opt x0 y0 v0 yaw0 d_opt oa0 od0 w zo d Hzo Hso Hd Hsd run.
    destruct (linear_mpc_control_type_error osqp z_opt x0 y0 v0 yaw0 d_opt
                oa0 od0 w zo d Hfail Hzo Hso Hd Hsd) as (H1 & H2 & _).
    split; assumption.
  - intros sp s. now apply main_tick_failing.
Qed.

Lemma solver_failure_raises_witness :
  let run := linear_mpc_control (constant_solver INFEASIBLE) 0%nat
               [0; 0; 0; 0] 2%nat None None example_world in
  fst run = Raise TypeError
  /\ stdout (snd run) = ["Cannot solve linear mpc"%string].
Proof.
  apply (proj1 (proj2 (solver_failure_raises (constant_solver INFEASIBLE)
                         (fun q => eq_refl)))
           0%nat 0 0 0 0 2%nat None None example_world
           (np_zeros 4 7) (np_zeros 1 7)).
  - reflexivity.
  - apply (shape_np_zeros 4 7).
  - reflexivity.
  - apply (shape_np_zeros 1 7).
Defined.

(** ** Instances on concrete inputs *)

Lemma linear_model_consistent_at_operating_point_witness :
  Rabs 0 <= P.MAX_STEER
  /\ cos 0 <> 0
  /\ let n := Node.update (Node.init 0 0 0 1) 0 0 1.0 in
     affine (calc_linear_discrete_model 1 0 0) [0; 0; 1; 0] [0; 0]
     = [Node.x n; Node.y n; Node.v n; Node.yaw n].
Proof.
  assert (Hd : Rabs 0 <= P.MAX_STEER).
  { rewrite Rabs_R0, MAX_STEER_eq. pose proof PI_RGT_0. lra. }
  assert (Hc : cos 0 <> 0) by (rewrite cos_0; lra).
  split; [exact Hd|]. split; [exact Hc|].
  exact (linear_model_consistent_at_operating_point 0 0 1 0 0 0 Hd Hc).
Defined.

Lemma example_path_wf : path_wf example_path.
Proof. repeat split. Qed.

Lemma nearest_index_in_bounds_witness :
  exists ind d p',
    PATH.nearest_index example_node example_path = (Ok (ind, d), p')
    /\ (PATH.ind_old example_path <= ind <= PATH.length example_path - 1)%Z
    /\ PATH.ind_old p' = ind
    /\ (exists x y w, py_index (PATH.cx example_path) ind = Ok x
                      /\ py_index (PATH.cy example_path) ind = Ok y
                      /\ py_index (PATH.cyaw example_path) ind = Ok w).
Proof.
  apply (nearest_index_in_bounds example_path example_node).
  - exact example_path_wf.
  - unfold example_path, PATH.init, py_len;
      cbn [PATH.length PATH.ind_old length]; lia.
  - unfold example_path, PATH.init, py_len;
      cbn [PATH.length PATH.ind_old length]; lia.
Defined.

Lemma horizon_reference_columns_witness :
  let fl := fun x : R => x in
  exists ind d z_opt d_opt p',
    PATH.nearest_index moving_node example_path = (Ok (ind, d), p')
    /\ calc_optimal_trajectory_in_T_step_fl fl moving_node [1; 1; 0] 1.0
         example_path
       = (Ok (z_opt, ind, d_opt), p')
    /\ forall i, (i <= Z.to_nat P.T)%nat ->
         let travel := travel_after fl (Node.v moving_node) (S i) in
         let index := Z.min (ind + py_round (fl (travel / 1.0)))
                        (PATH.length example_path - 1) in
         (0 <= index <= PATH.length example_path - 1)%Z
         /\ entry d_opt 0 i = Some 0.0
         /\ exists x y s yaw,
              py_index (PATH.cx example_path) index = Ok x
              /\ py_index (PATH.cy example_path) index = Ok y
              /\ py_index [1; 1; 0] index = Ok s
              /\ py_index (PATH.cyaw example_path) index = Ok yaw
              /\ column4 z_opt i = [Some x; Some y; Some s; Some yaw].
Proof.
  apply (horizon_reference_columns (fun x => x) moving_node example_path
           [1; 1; 0] 1.0).
  - exact rounding_exact.
  - exact example_path_wf.
  - unfold example_path, PATH.init, py_len;
      cbn [PATH.length PATH.ind_old length]; lia.
  - reflexivity.
  - lra.
Defined.

Lemma predict_model_fresh_trajectory_witness :
  exists z_bar zb w',
    predict_model [0; 0; 1; 0] (Some [1; 1]) (Some [0; 0]) 0%nat example_world
    = (Ok z_bar, w')
    /\ heap example_world !! z_bar = None
    /\ heap w' = <[z_bar := zb]> (heap example_world)
    /\ heap w' !! 0%nat = Some (np_zeros 4 7)
    /\ (forall l, l <> z_bar -> heap w' !! l = heap example_world !! l)
    /\ column4 zb 0 = [Some 0; Some 0; Some 1; Some 0]
    /\ forall (j : nat) (g : R),
         (1 <= j <= Nat.min (Nat.min (length [1; 1]) (length [0; 0]))
                      (Z.to_nat P.T))%nat ->
         column4 zb j
         = state_column (rollout (Node.mk 0 0 0 1 g) [1; 1] [0; 0] j).
Proof.
  apply (predict_model_fresh_trajectory 0 0 1 0 [1; 1] [0; 0] 0%nat
           (np_zeros 4 7) example_world).
  - reflexivity.
  - apply (shape_np_zeros 4 7).
Defined.


(** * Further properties of the controller's components *)

(** ** Steering saturation and the kinematic update *)

Lemma limit_input_range (delta : R) :
  - P.MAX_STEER <= Node.limit_input delta <= P.MAX_STEER.
Proof.
  assert (Hpi := PI_RGT_0). unfold Node.limit_input. rewrite MAX_STEER_eq.
  destruct (Rge_dec delta (PI / 4)); [lra|].
  destruct (Rle_dec delta (- (PI / 4))); lra.
Qed.

(** X1. [limit_input] clamps: its result lies within -MAX_STEER ..
    MAX_STEER, clamping twice is clamping once, and the command comes back
    unchanged exactly when it already lies within the limits. *)
Theorem limit_input_clamps (delta : R) :
  - P.MAX_STEER <= Node.limit_input delta <= P.MAX_STEER
  /\ Node.limit_input (Node.limit_input delta) = Node.limit_input delta
  /\ (Node.limit_input delta = delta
      <-> - P.MAX_STEER <= delta <= P.MAX_STEER).
Proof.
  pose proof (limit_input_range delta) as Hr.
  split; [exact Hr|]. split.
  - apply limit_input_id. apply Rabs_le. exact Hr.
  - split.
    + intros <-. exact Hr.
    + intros H. apply limit_input_id. apply Rabs_le. exact H.
Qed.

(** X2. Saturation is silent: a steering command at or beyond +MAX_STEER
    moves the vehicle exactly as +MAX_STEER does, one at or below -MAX_STEER
    exactly as -MAX_STEER does. *)
Theorem update_saturates (s : Node.t) (a delta direct : R) :
  P.MAX_STEER <= Rabs delta ->
  Node.update s a delta direct
  = Node.update s a (if Rle_dec 0 delta then P.MAX_STEER else - P.MAX_STEER)
      direct.
Proof.
  intros H. assert (Hpi := PI_RGT_0).
  assert (Hm : 0 < P.MAX_STEER) by (rewrite MAX_STEER_eq; lra).
  assert (Hl : forall d, Node.limit_input d
               = if Rge_dec d P.MAX_STEER then P.MAX_STEER
                 else if Rle_dec d (- P.MAX_STEER) then - P.MAX_STEER else d)
    by reflexivity.
  unfold Node.update. f_equal. do 3 f_equal.
  unfold Rabs in H.
  destruct (Rle_dec 0 delta) as [Hp|Hn]; rewrite !Hl;
    destruct (Rcase_abs delta);
    repeat match goal with
           | |- context [Rge_dec ?x ?y] => destruct (Rge_dec x y)
           | |- context [Rle_dec ?x ?y] => destruct (Rle_dec x y)
           end; lra.
Qed.

Lemma update_saturates_witness :
  P.MAX_STEER <= Rabs 1
  /\ Node.update example_node 0 1 1
     = Node.update example_node 0
         (if Rle_dec 0 1 then P.MAX_STEER else - P.MAX_STEER) 1.
Proof.
  assert (H : P.MAX_STEER <= Rabs 1).
  { rewrite MAX_STEER_eq, Rabs_R1. pose proof PI_4. lra. }
  split; [exact H|]. exact (update_saturates example_node 0 1 1 H).
Defined.

(** X3. In one update the vehicle moves by exactly |v| * dt, whatever the
    controls; its speed changes by direct * a * dt and its gear becomes
    [direct]; a zero steering command leaves the heading as it was. *)
Theorem update_displacement (s : Node.t) (a delta direct : R) :
  let s' := Node.update s a delta direct in
  hypot (Node.x s' - Node.x s) (Node.y s' - Node.y s) = Rabs (Node.v s) * P.dt
  /\ Node.v s' = Node.v s + direct * a * P.dt
  /\ Node.direct s' = direct
  /\ Node.yaw (Node.update s a 0 direct) = Node.yaw s.
Proof.
  cbn. split; [|split; [reflexivity|split; [reflexivity|]]].
  - unfold hypot.
    replace ((Node.x s + Node.v s * cos (Node.yaw s) * P.dt - Node.x s)
             * (Node.x s + Node.v s * cos (Node.yaw s) * P.dt - Node.x s)
             + (Node.y s + Node.v s * sin (Node.yaw s) * P.dt - Node.y s)
               * (Node.y s + Node.v s * sin (Node.yaw s) * P.dt - Node.y s))
      with (Rsqr (Node.v s * P.dt)
            * (Rsqr (sin (Node.yaw s)) + Rsqr (cos (Node.yaw s))))
      by (unfold Rsqr; ring).
    rewrite sin2_cos2, Rmult_1_r, sqrt_Rsqr_abs, Rabs_mult.
    f_equal. apply Rabs_pos_eq. unfold P.dt. lra.
  - assert (H0 : Node.limit_input 0 = 0).
    { apply limit_input_id. rewrite Rabs_R0, MAX_STEER_eq.
      pose proof PI_RGT_0. lra. }
    rewrite H0, tan_0. lra.
Qed.

(** ** Angle wrapping *)

(** X4. [pi_2_pi] shifts its argument by 0 or by one turn, so it preserves
    sine and cosine; it is the identity on [-pi, pi]. *)
Theorem pi_2_pi_same_direction (angle : R) :
  (pi_2_pi angle = angle \/ pi_2_pi angle = angle - 2 * PI
   \/ pi_2_pi angle = angle + 2 * PI)
  /\ cos (pi_2_pi angle) = cos angle
  /\ sin (pi_2_pi angle) = sin angle
  /\ (pi_2_pi angle = angle <-> - PI <= angle <= PI).
Proof.
  assert (Hpi := PI_RGT_0). unfold pi_2_pi.
  destruct (Rgt_dec angle PI) as [Hg|Hg].
  - replace (angle - 2.0 * PI) with (angle - 2 * PI) by lra.
    split; [auto|]. split; [|split].
    + unfold Rminus. rewrite cos_plus, cos_neg, sin_neg, cos_2PI, sin_2PI. ring.
    + unfold Rminus. rewrite sin_plus, cos_neg, sin_neg, cos_2PI, sin_2PI. ring.
    + split; intros; lra.
  - destruct (Rlt_dec angle (- PI)) as [Hl|Hl].
    + replace (angle + 2.0 * PI) with (angle + 2 * PI) by lra.
      split; [auto|]. split; [|split].
      * rewrite cos_plus, cos_2PI, sin_2PI; ring.
      * rewrite sin_plus, cos_2PI, sin_2PI; ring.
      * split; intros; lra.
    + split; [auto|]. split; [reflexivity|]. split; [reflexivity|].
      split; intros; lra.
Qed.

(** X5. [pi_2_pi] wraps once: an angle within three half-turns of zero is
    brought into [-pi, pi] (the value -pi itself is kept, not mapped to pi),
    while an angle beyond 3 pi stays outside. *)
Theorem pi_2_pi_wraps_once (angle : R) :
  - (3 * PI) <= angle <= 3 * PI ->
  - PI <= pi_2_pi angle <= PI
  /\ pi_2_pi (- PI) = - PI
  /\ forall far, 3 * PI < far -> PI < pi_2_pi far.
Proof.
  intros H. assert (Hpi := PI_RGT_0). unfold pi_2_pi. split; [|split].
  - destruct (Rgt_dec angle PI); [lra|].
    destruct (Rlt_dec angle (- PI)); lra.
  - destruct (Rgt_dec (- PI) PI); [lra|].
    destruct (Rlt_dec (- PI) (- PI)); lra.
  - intros far Hfar. destruct (Rgt_dec far PI); lra.
Qed.

Lemma pi_2_pi_wraps_once_witness :
  - PI <= pi_2_pi (2 * PI) <= PI
  /\ pi_2_pi (- PI) = - PI
  /\ forall far, 3 * PI < far -> PI < pi_2_pi far.
Proof.
  apply (pi_2_pi_wraps_once (2 * PI)). pose proof PI_RGT_0. lra.
Defined.

(** ** Linearizer *)

(** X6. The linear model is exact, not only first-order, in position, speed
    and acceleration: for a state with the heading phi and the steering
    delta of the operating point, and any speed v (which need not be the
    speed vbar the model was computed at), the affine model gives the state
    [Node.update] produces. *)
Theorem linear_model_exact_in_speed (x y v vbar phi delta a : R) :
  Rabs delta <= P.MAX_STEER ->
  let n := Node.update (Node.init x y phi v) a delta 1.0 in
  affine (calc_linear_discrete_model vbar phi delta) [x; y; v; phi] [a; delta]
  = [Node.x n; Node.y n; Node.v n; Node.yaw n].
Proof.
  intros Hd n. subst n.
  unfold affine, calc_linear_discrete_model, matvec, dot, py_sum, Node.update,
    Node.init. cbn.
  rewrite (limit_input_id delta Hd).
  unfold P.dt, P.WB, tan.
  repeat apply (f_equal2 cons); try reflexivity; lra.
Qed.

Lemma linear_model_exact_in_speed_witness :
  Rabs 0 <= P.MAX_STEER
  /\ let n := Node.update (Node.init 0 0 0 2) 1 0 1.0 in
     affine (calc_linear_discrete_model 1 0 0) [0; 0; 2; 0] [1; 0]
     = [Node.x n; Node.y n; Node.v n; Node.yaw n].
Proof.
  assert (Hd : Rabs 0 <= P.MAX_STEER).
  { rewrite Rabs_R0, MAX_STEER_eq. pose proof PI_RGT_0. lra. }
  split; [exact Hd|].
  exact (linear_model_exact_in_speed 0 0 2 1 0 0 1 Hd).
Defined.

(** ** ReferencePath: what the search returns *)







Lemma py_slice_past_end {A : Type} (l : list A) (a b : Z) :
  (py_len l <= a)%Z -> py_slice l a b = [].
Proof.
  intros Ha. unfold py_slice, py_slice_bound, py_len in *.
  destruct (Z.ltb_spec a 0) as [?|_]; [lia|].
  rewrite drop_ge by lia. apply take_nil.
Qed.

(** X8. A search that starts at or past the end of the path (in particular
    any search on an empty path) raises ValueError and leaves the cursor
    where it was. *)
Theorem nearest_index_past_end (p : PATH.t) (n : Node.t) :
  (py_len (PATH.cx p) <= PATH.ind_old p)%Z ->
  PATH.nearest_index n p = (Raise ValueError, p).
Proof.
  intros H. unfold PATH.nearest_index, bind, get, lift.
  rewrite (py_slice_past_end (PATH.cx p)) by exact H.
  cbn [map]. unfold np_hypot, np_broadcast2.
  destruct (map _ (py_slice (PATH.cy p) _ _)) as [|y [|y' t]]; reflexivity.
Qed.

Lemma nearest_index_past_end_witness :
  (py_len (PATH.cx (PATH.init [] [] [] [])) <= PATH.ind_old (PATH.init [] [] [] []))%Z
  /\ PATH.nearest_index example_node (PATH.init [] [] [] [])
     = (Raise ValueError, PATH.init [] [] [] []).
Proof.
  assert (H : (py_len (PATH.cx (PATH.init [] [] [] []))
               <= PATH.ind_old (PATH.init [] [] [] []))%Z)
    by (unfold PATH.init, py_len; cbn [PATH.cx PATH.ind_old length]; lia).
  split; [exact H|].
  exact (nearest_index_past_end (PATH.init [] [] [] []) example_node H).
Defined.

(** ** SpeedProfile: values, forward paths, errors *)

Lemma speed_profile_entries (cx cy cyaw : vector) (ts : R) :
  length cy = length cx -> length cyaw = length cx ->
  (0 < length cx)%nat ->
  exists sp,
    calc_speed_profile cx cy cyaw ts = Ok sp
    /\ length sp = length cx
    /\ sp !! (length cx - 1)%nat = Some 0.0
    /\ (forall i, (S i < length cx)%nat -> segment_classified cx cy cyaw sp ts i)
    /\ forall i, (S i < length cx)%nat ->
         sp !! i = Some ts \/ sp !! i = Some (- ts).
Proof.
  intros Hcy Hcyaw Hpos.
  destruct (calc_speed_profile_spec cx cy cyaw ts Hcy Hcyaw Hpos)
    as (sp & Hrun & Hlen & Hlast & Hseg).
  exists sp. repeat (split; [assumption|]).
  induction i as [|i IH]; intros Hi.
  - destruct (lookup_lt_is_Some_2 cx 0) as [x0 Hx0]; [lia|].
    destruct (lookup_lt_is_Some_2 cx 1) as [x1 Hx1]; [lia|].
    destruct (lookup_lt_is_Some_2 cy 0) as [y0 Hy0]; [lia|].
    destruct (lookup_lt_is_Some_2 cy 1) as [y1 Hy1]; [lia|].
    destruct (lookup_lt_is_Some_2 cyaw 0) as [w Hw]; [lia|].
    destruct (Hseg 0%nat Hi x0 x1 y0 y1 w Hx0 Hx1 Hy0 Hy1 Hw) as [Hg Hk].
    destruct (Req_dec (x1 - x0) 0) as [H0|H0]; [left; apply Hk; auto|].
    destruct (Req_dec (y1 - y0) 0) as [H1|H1]; [left; apply Hk; auto|].
    rewrite (Hg H0 H1). destruct (Rge_dec _ _); auto.
  - destruct (lookup_lt_is_Some_2 cx (S i)) as [x0 Hx0]; [lia|].
    destruct (lookup_lt_is_Some_2 cx (S (S i))) as [x1 Hx1]; [lia|].
    destruct (lookup_lt_is_Some_2 cy (S i)) as [y0 Hy0]; [lia|].
    destruct (lookup_lt_is_Some_2 cy (S (S i))) as [y1 Hy1]; [lia|].
    destruct (lookup_lt_is_Some_2 cyaw (S i)) as [w Hw]; [lia|].
    destruct (Hseg (S i) Hi x0 x1 y0 y1 w Hx0 Hx1 Hy0 Hy1 Hw) as [Hg Hk].
    destruct (Req_dec (x1 - x0) 0) as [H0|H0];
      [rewrite Hk by auto; apply IH; lia|].
    destruct (Req_dec (y1 - y0) 0) as [H1|H1];
      [rewrite Hk by auto; apply IH; lia|].
    rewrite (Hg H0 H1). destruct (Rge_dec _ _); auto.
Qed.

(** X9. The profile of a non-empty path has the path's length, ends in 0
    (the stop at the terminus) and holds +target_speed or -target_speed at
    every other sample. *)
Theorem speed_profile_values (cx cy cyaw : vector) (ts : R) :
  length cy = length cx -> length cyaw = length cx ->
  (0 < length cx)%nat ->
  exists sp,
    calc_speed_profile cx cy cyaw ts = Ok sp
    /\ length sp = length cx
    /\ last sp = Some 0.0
    /\ forall i, (S i < length cx)%nat ->
         sp !! i = Some ts \/ sp !! i = Some (- ts).
Proof.
  intros Hcy Hcyaw Hpos.
  destruct (speed_profile_entries cx cy cyaw ts Hcy Hcyaw Hpos)
    as (sp & Hrun & Hlen & Hlast & _ & Hval).
  exists sp. split; [exact Hrun|]. split; [exact Hlen|]. split; [|exact Hval].
  rewrite last_lookup, Hlen. replace (pred (length cx)) with (length cx - 1)%nat
    by lia. exact Hlast.
Qed.

Lemma speed_profile_values_witness :
  exists sp,
    calc_speed_profile [0; 1; 2] [0; 1; 2] [0; 0; 0] 1 = Ok sp
    /\ length sp = length [0; 1; 2]
    /\ last sp = Some 0.0
    /\ forall i, (S i < length [0; 1; 2])%nat ->
         sp !! i = Some 1 \/ sp !! i = Some (- 1).
Proof.
  apply (speed_profile_values [0; 1; 2] [0; 1; 2] [0; 0; 0] 1).
  - reflexivity.
  - reflexivity.
  - cbn [length]. lia.
Defined.

(** X10. A segment that does not move along both axes (dx = 0 or dy = 0) is
    not classified afresh: it gets the speed of the segment before it, and
    +target_speed when it is the first. *)
Theorem speed_profile_axis_aligned (cx cy cyaw : vector) (ts : R) (i : nat)
  (x0 x1 y0 y1 : R) :
  length cy = length cx -> length cyaw = length cx ->
  (S i < length cx)%nat ->
  cx !! i = Some x0 -> cx !! S i = Some x1 ->
  cy !! i = Some y0 -> cy !! S i = Some y1 ->
  x1 - x0 = 0 \/ y1 - y0 = 0 ->
  exists sp,
    calc_speed_profile cx cy cyaw ts = Ok sp
    /\ sp !! i = match i with
                 | O => Some ts
                 | S j => sp !! j
                 end.
Proof.
  intros Hcy Hcyaw Hi Hx0 Hx1 Hy0 Hy1 Hz.
  destruct (speed_profile_entries cx cy cyaw ts Hcy Hcyaw ltac:(lia))
    as (sp & Hrun & _ & _ & Hseg & _).
  exists sp. split; [exact Hrun|].
  destruct (lookup_lt_is_Some_2 cyaw i) as [w Hw]; [lia|].
  destruct (Hseg i Hi x0 x1 y0 y1 w Hx0 Hx1 Hy0 Hy1 Hw) as [_ Hk].
  exact (Hk Hz).
Qed.

Lemma speed_profile_axis_aligned_witness :
  exists sp,
    calc_speed_profile [0; 1; 2] [0; 0; 0] [PI; PI; PI] 1 = Ok sp
    /\ sp !! 0%nat = Some 1.
Proof.
  apply (speed_profile_axis_aligned [0; 1; 2] [0; 0; 0] [PI; PI; PI] 1 0%nat
           0 1 0 0); try reflexivity.
  - cbn [length]. lia.
  - right. lra.
Defined.



Lemma py_index_raise {A : Type} (l : list A) (i : Z) (e : exn) :
  py_index l i = Raise e -> e = IndexError.
Proof.
  unfold py_index. destruct (_ <? 0)%Z; [congruence|].
  destruct (l !! _); congruence.
Qed.

Lemma py_setitem_raise {A : Type} (l : list A) (i : Z) (a : A) (e : exn) :
  py_setitem l i a = Raise e -> e = IndexError.
Proof.
  unfold py_setitem. destruct (_ <? 0)%Z; [congruence|].
  destruct (_ <? _)%Z; congruence.
Qed.

Lemma py_setitem_length {A : Type} (l l' : list A) (i : Z) (a : A) :
  py_setitem l i a = Ok l' -> length l' = length l /\ (0 < length l)%nat.
Proof.
  unfold py_setitem, py_len.
  set (j := if (i <? 0)%Z then (i + Z.of_nat (length l))%Z else i).
  destruct (Z.ltb_spec j 0); [discriminate|].
  destruct (Z.ltb_spec j (Z.of_nat (length l))); [|discriminate].
  intros [= <-]. rewrite length_insert. split; [reflexivity|lia].
Qed.

Lemma py_index_in_range {A : Type} (l : list A) (i : Z) (a : A) :
  (0 <= i)%Z -> py_index l i = Ok a -> (i < py_len l)%Z.
Proof.
  intros H0 H. apply py_index_nonneg in H; [|exact H0].
  apply lookup_lt_Some in H. unfold py_len. lia.
Qed.

Lemma forR_cases {St I : Type} (P : St -> Prop) (Q : exn -> Prop)
  (items : list I) (body : I -> St -> result St) (st : St) :
  P st ->
  (forall i st, P st ->
     match body i st with
     | Ok st' => P st'
     | Raise e => Q e
     end) ->
  match forR items body st with
  | Ok st' =>
      P st' /\ forall i, i ∈ items -> exists st1 st2, body i st1 = Ok st2
  | Raise e => Q e
  end.
Proof.
  intros H0 Hstep. revert st H0.
  induction items as [|i items IH]; intros st H0; cbn.
  - split; [exact H0|]. intros i Hi. inversion Hi.
  - specialize (Hstep i st H0).
    destruct (body i st) as [st1|e] eqn:Hb; cbn; [|exact Hstep].
    specialize (IH st1 Hstep).
    destruct (forR items body st1) as [st2|e]; [|exact IH].
    destruct IH as [HP Hall]. split; [exact HP|].
    intros j Hj. apply elem_of_cons in Hj as [->|Hj]; [eauto|auto].
Qed.

(** X12. [calc_speed_profile] raises nothing but IndexError. It returns
    only for a non-empty path (an empty one raises at the write of the last
    entry), with a profile of the path's length, and, when the path has at
    least two samples, only if [cy] is at least as long as [cx]. *)
Theorem speed_profile_errors (cx cy cyaw : vector) (ts : R) :
  match calc_speed_profile cx cy cyaw ts with
  | Ok sp =>
      (0 < length cx)%nat /\ length sp = length cx
      /\ ((2 <= length cx)%nat -> (length cx <= length cy)%nat)
  | Raise e => e = IndexError
  end.
Proof.
  unfold calc_speed_profile.
  match goal with |- context [forR ?items ?body ?st] =>
    pose proof (forR_cases
      (fun '(_, sp) => length sp = length cx) (fun e => e = IndexError)
      items body st) as H
  end.
  match type of H with ?A -> ?B -> _ =>
    assert (H0 : A) by apply length_replicate;
    assert (H1 : B); [|specialize (H H0 H1); clear H0 H1]
  end.
  { intros i [dir sp] Hlen. cbv beta iota.
    destruct (py_index cx (i + 1)) as [x1|e] eqn:E1; cbn [bindR];
      [|exact (py_index_raise _ _ _ E1)].
    destruct (py_index cx i) as [x0|e] eqn:E2; cbn [bindR];
      [|exact (py_index_raise _ _ _ E2)].
    destruct (py_index cy (i + 1)) as [y1|e] eqn:E3; cbn [bindR];
      [|exact (py_index_raise _ _ _ E3)].
    destruct (py_index cy i) as [y0|e] eqn:E4; cbn [bindR];
      [|exact (py_index_raise _ _ _ E4)].
    assert (Hset : forall a,
              match py_setitem sp i a with
              | Ok sp' => length sp' = length cx
              | Raise e => e = IndexError
              end).
    { intros a. destruct (py_setitem sp i a) as [sp'|e] eqn:E.
      - apply py_setitem_length in E as [-> _]. exact Hlen.
      - exact (py_setitem_raise _ _ _ _ E). }
    assert (Hfin : forall d,
              match (let? speed_profile :=
                       if Rneqb d 1.0 then py_setitem sp i (- ts)
                       else py_setitem sp i ts in
                     Ok (d, speed_profile)) with
              | Ok (_, sp') => length sp' = length cx
              | Raise e => e = IndexError
              end).
    { intros d. destruct (Rneqb d 1.0).
      - specialize (Hset (- ts)). destruct (py_setitem sp i (- ts)); exact Hset.
      - specialize (Hset ts). destruct (py_setitem sp i ts); exact Hset. }
    destruct (Rneqb (x1 - x0) 0.0 && Rneqb (y1 - y0) 0.0); cbn [bindR].
    - destruct (py_index cyaw i) as [w|e] eqn:E5; cbn [bindR];
        [|exact (py_index_raise _ _ _ E5)].
      destruct (Rge_dec _ _); cbn [bindR]; apply Hfin.
    - apply Hfin. }
  destruct (forR _ _ _) as [[dir sp]|e]; cbn [bindR]; [|exact H].
  destruct H as [Hlen Hall].
  destruct (py_setitem sp (-1) 0.0) as [sp'|e] eqn:E; cbn [bindR];
    [|exact (py_setitem_raise _ _ _ _ E)].
  apply py_setitem_length in E as [E1 E2]. rewrite Hlen in E1, E2.
  split; [exact E2|]. split; [exact E1|].
  intros H2.
  destruct (Hall (Z.of_nat (length cx - 2))) as ([d1 s1] & st2 & Hb).
  { unfold py_range. apply list_elem_of_fmap. exists (length cx - 2)%nat.
    split; [reflexivity|]. apply elem_of_seq. unfold py_len. lia. }
  cbv beta iota in Hb.
  destruct (py_index cx (Z.of_nat (length cx - 2) + 1)); [|discriminate].
  destruct (py_index cx (Z.of_nat (length cx - 2))); [|discriminate].
  cbn [bindR] in Hb.
  destruct (py_index cy (Z.of_nat (length cx - 2) + 1)) as [y1|] eqn:E3;
    [|discriminate].
  apply py_index_in_range in E3; [|lia]. unfold py_len in E3. lia.
Qed.

(** ** HorizonReferenceExtractor: the look-ahead *)

Lemma py_round_bounds (x : R) :
  (Zfloor x <= py_round x <= Zfloor x + 1)%Z.
Proof.
  unfold py_round. destruct (Rlt_dec _ _); [lia|].
  destruct (Rlt_dec _ _); [lia|]. destruct (Z.even _); lia.
Qed.

Lemma py_round_mono (x y : R) : x <= y -> (py_round x <= py_round y)%Z.
Proof.
  intros Hxy. pose proof (Zfloor_le x y Hxy) as Hf.
  pose proof (py_round_bounds x) as Bx. pose proof (py_round_bounds y) as By.
  destruct (Z.eq_dec (Zfloor x) (Zfloor y)) as [He|Hne]; [|lia].
  unfold py_round in *. rewrite He in *.
  destruct (Rlt_dec (y - IZR (Zfloor y)) (1 / 2));
    destruct (Rlt_dec (x - IZR (Zfloor y)) (1 / 2)); try lia; try lra.
  destruct (Rlt_dec (1 / 2) (y - IZR (Zfloor y)));
    destruct (Rlt_dec (1 / 2) (x - IZR (Zfloor y))); try lia; try lra;
    destruct (Z.even (Zfloor y)); lia.
Qed.

Lemma py_round_0 : py_round 0 = 0%Z.
Proof.
  unfold py_round. change 0 with (IZR 0). rewrite ZfloorZ.
  destruct (Rlt_dec (IZR 0 - IZR 0) (1 / 2)); [reflexivity|lra].
Qed.

Lemma sample_at_ok (p : PATH.t) (sp : vector) (index : Z) (x y s yaw : R) :
  py_index (PATH.cx p) index = Ok x ->
  py_index (PATH.cy p) index = Ok y ->
  py_index sp index = Ok s ->
  py_index (PATH.cyaw p) index = Ok yaw ->
  sample_at p sp index = Ok [Some x; Some y; Some s; Some yaw].
Proof. intros Hx Hy Hs Hw. unfold sample_at. now rewrite Hx, Hy, Hs, Hw. Qed.

(** X13. The reference columns look ahead along the path and never back,
    whatever the rounding of the float operations: column i is the sample
    at an index that is at least the nearest index, at most the last index,
    and non-decreasing in i. For a vehicle at rest, and for a vehicle whose
    nearest sample is the last one, every column is the sample at the
    nearest index. *)
Theorem lookahead_never_backwards (fl : R -> R) (node : Node.t) (p : PATH.t)
  (sp : vector) (dl : R) :
  rounding fl ->
  path_wf p ->
  (0 <= PATH.ind_old p <= PATH.length p - 1)%Z ->
  py_len sp = PATH.length p ->
  0 < dl ->
  exists ind z_opt d_opt p',
    calc_optimal_trajectory_in_T_step_fl fl node sp dl p
    = (Ok (z_opt, ind, d_opt), p')
    /\ (forall i, (i <= Z.to_nat P.T)%nat ->
          sample_at p sp (lookahead_index fl node p dl ind i)
          = Ok (column4 z_opt i))
    /\ (forall i, (ind <= lookahead_index fl node p dl ind i
                   <= PATH.length p - 1)%Z)
    /\ (forall i j, (i <= j)%nat ->
          (lookahead_index fl node p dl ind i
           <= lookahead_index fl node p dl ind j)%Z)
    /\ (Node.v node = 0 \/ ind = (PATH.length p - 1)%Z ->
        forall i, lookahead_index fl node p dl ind i = ind).
Proof.
  intros Hfl Hwf Hc Hsp Hdl.
  destruct (calc_optimal_trajectory_fl_spec fl node p sp dl Hfl Hwf Hc Hsp Hdl)
    as (ind & d & z_opt & d_opt & Hnear & Hrun & _ & _ & Hcols).
  destruct (nearest_index_ok p node Hwf Hc) as (ind' & d' & Hnear' & Hind).
  rewrite Hnear in Hnear'. injection Hnear' as <- <-.
  pose proof (fun i => rounded_offset_nonneg fl (Node.v node) dl i Hfl Hdl)
    as Hq.
  exists ind, z_opt, d_opt, (PATH.set_ind_old p ind).
  split; [exact Hrun|]. split; [|split; [|split]].
  - intros i Hi.
    destruct (Hcols i ltac:(unfold P.T in Hi; lia))
      as (_ & _ & x & y & s & yaw & Hx & Hy & Hs & Hw & Hcol).
    rewrite Hcol. now apply sample_at_ok.
  - intros i. unfold lookahead_index.
    pose proof (py_round_nonneg _ (Hq (S i))). lia.
  - intros i j Hij. unfold lookahead_index.
    assert (Hle : fl (travel_after fl (Node.v node) (S i) / dl)
                  <= fl (travel_after fl (Node.v node) (S j) / dl)).
    { pose proof Hfl as (Hmono & _). apply Hmono.
      apply Rmult_le_compat_r; [left; now apply Rinv_0_lt_compat|].
      apply travel_after_mono; [exact Hfl|lia]. }
    apply py_round_mono in Hle. lia.
  - intros [Hv|Hlast] i; unfold lookahead_index.
    + rewrite Hv, (travel_after_rest fl (S i) Hfl).
      unfold Rdiv. rewrite Rmult_0_l.
      destruct Hfl as (_ & _ & ->). rewrite py_round_0. lia.
    + pose proof (py_round_nonneg _ (Hq (S i))). lia.
Qed.

Lemma lookahead_never_backwards_witness :
  let fl := fun x : R => x in
  exists ind z_opt d_opt p',
    calc_optimal_trajectory_in_T_step_fl fl moving_node [1; 1; 0] 1.0
      example_path
    = (Ok (z_opt, ind, d_opt), p')
    /\ (forall i, (i <= Z.to_nat P.T)%nat ->
          sample_at example_path [1; 1; 0]
            (lookahead_index fl moving_node example_path 1.0 ind i)
          = Ok (column4 z_opt i))
    /\ (forall i,
          (ind <= lookahead_index fl moving_node example_path 1.0 ind i
           <= PATH.length example_path - 1)%Z)
    /\ (forall i j, (i <= j)%nat ->
          (lookahead_index fl moving_node example_path 1.0 ind i
           <= lookahead_index fl moving_node example_path 1.0 ind j)%Z)
    /\ (Node.v moving_node = 0 \/ ind = (PATH.length example_path - 1)%Z ->
        forall i, lookahead_index fl moving_node example_path 1.0 ind i = ind).
Proof.
  apply (lookahead_never_backwards (fun x => x) moving_node example_path
           [1; 1; 0] 1.0).
  - exact rounding_exact.
  - exact example_path_wf.
  - unfold example_path, PATH.init, py_len;
      cbn [PATH.length PATH.ind_old length]; lia.
  - reflexivity.
  - lra.
Defined.



(** ** Predictor: the predicted speeds *)

Lemma py_sum_shift (l : vector) (acc : R) :
  fold_left Rplus l acc = acc + py_sum l.
Proof.
  unfold py_sum. revert acc. induction l as [|a l IH]; intros acc; cbn.
  - lra.
  - rewrite IH, (IH (0 + a)). lra.
Qed.

Lemma rollout_speed (n : Node.t) (a delta : vector) (k : nat) :
  (k <= length a)%nat -> (k <= length delta)%nat ->
  Node.v (rollout n a delta k) = Node.v n + P.dt * py_sum (take k a).
Proof.
  revert n a delta. induction k as [|k IH]; intros n a delta Ha Hd.
  - destruct a, delta; cbn; unfold py_sum; cbn; lra.
  - destruct a as [|ai a]; [cbn in Ha; lia|].
    destruct delta as [|di delta]; [cbn in Hd; lia|].
    cbn [rollout take]. rewrite IH by (cbn in Ha, Hd; lia).
    unfold py_sum at 2. cbn [fold_left]. rewrite py_sum_shift.
    cbn [Node.update Node.v]. lra.
Qed.

(** X15. The speeds [predict_model] predicts do not depend on the steering:
    row 2 of column j of the returned trajectory is the initial speed plus
    dt times the sum of the first j accelerations. *)
Theorem predicted_speed_is_integrated_acceleration (x0 y0 v0 yaw0 : R)
  (a delta : vector) (z_opt : loc) (zo : ndarray) (w : world) :
  heap w !! z_opt = Some zo ->
  shape zo 4 7 ->
  exists z_bar zb w',
    predict_model [x0; y0; v0; yaw0] (Some a) (Some delta) z_opt w
    = (Ok z_bar, w')
    /\ heap w' !! z_bar = Some zb
    /\ forall j,
         (1 <= j <= Nat.min (Nat.min (length a) (length delta))
                      (Z.to_nat P.T))%nat ->
         entry zb 2 j = Some (v0 + P.dt * py_sum (take j a)).
Proof.
  intros Hz Hs.
  destruct (predict_model_spec x0 y0 v0 yaw0 a delta z_opt zo w Hz Hs)
    as (zb & Hrun & _ & _ & Hcols).
  eexists _, zb, _. split; [exact Hrun|]. split; [apply lookup_insert_eq|].
  intros j Hj. specialize (Hcols j Hj).
  unfold column4, state_column in Hcols.
  injection Hcols as _ _ Hv _. rewrite Hv. f_equal.
  rewrite rollout_speed by lia. reflexivity.
Qed.

Lemma predicted_speed_is_integrated_acceleration_witness :
  exists z_bar zb w',
    predict_model [0; 0; 1; 0] (Some [1; 1]) (Some [0; 0]) 0%nat example_world
    = (Ok z_bar, w')
    /\ heap w' !! z_bar = Some zb
    /\ forall j,
         (1 <= j <= Nat.min (Nat.min (length [1; 1]) (length [0; 0]))
                      (Z.to_nat P.T))%nat ->
         entry zb 2 j = Some (1 + P.dt * py_sum (take j [1; 1])).
Proof.
  apply (predicted_speed_is_integrated_acceleration 0 0 1 0 [1; 1] [0; 0]
           0%nat (np_zeros 4 7) example_world).
  - reflexivity.
  - apply (shape_np_zeros 4 7).
Defined.

(** ** QPFormulator/Solver: the problem built and the effects *)

(** X16. With well-shaped arrays the problem handed to the solver has the
    initial state z0, the terminal reference z_opt[:, T] and exactly T
    stages; stage 0 carries no tracking reference (the current state is not
    penalised), stage t > 0 carries z_opt[:, t], and the dynamics of stage t
    are linearised at (z_bar[2, t], z_bar[3, t], d_opt[0, t]). *)
Theorem qp_structure (osqp : solver) (z_opt z_bar : loc) (z0 : vector)
  (d_opt : loc) (w : world) (zo zb d : ndarray) :
  heap w !! z_opt = Some zo -> shape zo 4 7 ->
  heap w !! z_bar = Some zb -> shape zb 4 7 ->
  heap w !! d_opt = Some d -> shape d 1 7 ->
  exists q,
    solved (snd (solve_linear_mpc osqp z_opt z_bar z0 d_opt w))
    = solved w ++ [q]
    /\ qp_init q = z0
    /\ np_col zo P.T = Ok (qp_terminal q)
    /\ length (qp_stages q) = Z.to_nat P.T
    /\ forall t st, qp_stages q !! t = Some st ->
                    stage_of zo zb d (Z.of_nat t) st.
Proof.
  intros Hzo Hso Hzb Hsb Hd Hsd.
  unfold solve_linear_mpc.
  rewrite (bind_ok _ _ w w zo) by (unfold read; now rewrite Hzo).
  rewrite (bind_ok _ _ w w zb) by (unfold read; now rewrite Hzb).
  rewrite (bind_ok _ _ w w d) by (unfold read; now rewrite Hd).
  cbv beta.
  match goal with |- context [for_ ?items ?body []] =>
    destruct (for_invariant
      (fun k (acc : list stage) s =>
         s = w /\ length acc = k
         /\ forall t st, acc !! t = Some st -> stage_of zo zb d (Z.of_nat t) st)
      items body [] w) as (stages & w1 & Hloop & -> & Hlen & Hst)
  end.
  { split; [reflexivity|]. split; [reflexivity|]. intros t st Ht. discriminate. }
  { intros k t acc s Hk (-> & Hlen & Hacc).
    apply py_range_lookup in Hk as [-> Hk]. unfold P.T in Hk.
    destruct (np_get2_entry zb 4 7 2 (Z.of_nat k) Hsb) as (v & Hv & _); [lia..|].
    destruct (np_get2_entry zb 4 7 3 (Z.of_nat k) Hsb) as (phi & Hphi & _);
      [lia..|].
    destruct (np_get2_entry d 1 7 0 (Z.of_nat k) Hsd) as (dl & Hdl & _);
      [lia..|].
    assert (Href : exists ref,
               (if (Z.of_nat k =? 0)%Z then ret None
                else let* c := lift (np_col zo (Z.of_nat k)) in ret (Some c)) w
               = (Ok ref, w)
               /\ (Z.of_nat k = 0%Z -> ref = None)
               /\ (Z.of_nat k <> 0%Z ->
                   exists c, ref = Some c /\ np_col zo (Z.of_nat k) = Ok c)).
    { destruct (Z.eqb_spec (Z.of_nat k) 0) as [He|Hne].
      - exists None. split; [reflexivity|]. split; [auto|]. intros Hc. lia.
      - destruct (np_col_ok zo 4 7 (Z.of_nat k) Hso) as (c & Hc); [lia|].
        exists (Some c). split.
        + now rewrite (bind_ok _ _ w w c) by (unfold lift; now rewrite Hc).
        + split; [intros He; lia|]. intros _. eauto. }
    destruct Href as (ref & Href & Hr0 & Hr1).
    eexists _, w. split.
    - rewrite (bind_ok _ _ w w ref Href).
      rewrite (bind_ok _ _ w w v) by (unfold lift; now rewrite Hv).
      rewrite (bind_ok _ _ w w phi) by (unfold lift; now rewrite Hphi).
      rewrite (bind_ok _ _ w w dl) by (unfold lift; now rewrite Hdl).
      reflexivity.
    - split; [reflexivity|]. split; [rewrite length_app; cbn; lia|].
      intros t st Ht. destruct (decide (t < length acc)%nat) as [Hlt|Hge].
      + rewrite lookup_app_l in Ht by exact Hlt. now apply Hacc.
      + rewrite lookup_app_r in Ht by lia.
        destruct (t - length acc)%nat as [|t'] eqn:Ht'; [|discriminate].
        injection Ht as <-. replace t with k by lia.
        split; [exact Hr0|]. split; [exact Hr1|]. exists v, phi, dl. auto. }
  rewrite (bind_ok _ _ _ _ _ Hloop). cbv beta.
  destruct (np_col_ok zo 4 7 P.T Hso) as (term & Hterm); [unfold P.T; lia|].
  rewrite (bind_ok _ _ w w term) by (unfold lift; now rewrite Hterm).
  exists (mk_QP stages term z0).
  rewrite (bind_ok _ _ w (mk_world (heap w) (stdout w)
                            (solved w ++ [mk_QP stages term z0]))
             (osqp (mk_QP stages term z0))) by reflexivity.
  cbv beta. split.
  - destruct (_ || _).
    + unfold bind, lift, ret.
      repeat match goal with
             | |- context [py_index ?l ?i] => destruct (py_index l i)
             end; reflexivity.
    + reflexivity.
  - split; [reflexivity|]. split; [exact Hterm|]. split; [|exact Hst].
    cbn. rewrite Hlen. unfold py_range. now rewrite length_map, length_seq.
Qed.

Lemma qp_structure_witness :
  exists q,
    solved (snd (solve_linear_mpc (constant_solver OPTIMAL) 0%nat 1%nat
                   [0; 0; 0; 0] 2%nat example_world))
    = solved example_world ++ [q]
    /\ qp_init q = [0; 0; 0; 0]
    /\ np_col (np_zeros 4 7) P.T = Ok (qp_terminal q)
    /\ length (qp_stages q) = Z.to_nat P.T
    /\ forall t st, qp_stages q !! t = Some st ->
                    stage_of (np_zeros 4 7) (np_zeros 4 7) (np_zeros 1 7)
                      (Z.of_nat t) st.
Proof.
  apply (qp_structure (constant_solver OPTIMAL) 0%nat 1%nat [0; 0; 0; 0]
           2%nat example_world (np_zeros 4 7) (np_zeros 4 7) (np_zeros 1 7)).
  - reflexivity.
  - apply (shape_np_zeros 4 7).
  - reflexivity.
  - apply (shape_np_zeros 4 7).
  - reflexivity.
  - apply (shape_np_zeros 1 7).
Defined.

(** *** Effects on the world, in every run *)

Section Steps.
Variable rel : world -> world -> Prop.
Hypothesis rel_refl : forall s, rel s s.
Hypothesis rel_trans : forall s1 s2 s3, rel s1 s2 -> rel s2 s3 -> rel s1 s3.

Lemma steps_ret {A : Type} (a : A) : steps rel (ret a).
Proof. intros s. apply rel_refl. Qed.

Lemma steps_raise {A : Type} (e : exn) : steps rel (@raise world A e).
Proof. intros s. apply rel_refl. Qed.

Lemma steps_lift {A : Type} (r : result A) : steps rel (lift r).
Proof. intros s. apply rel_refl. Qed.

Lemma steps_read (l : loc) : steps rel (read l).
Proof. intros s. apply rel_refl. Qed.

Lemma steps_iter_vec (a : option vector) : steps rel (iter_vec a).
Proof. destruct a; [apply steps_ret|apply steps_raise]. Qed.

Lemma steps_bind {A B : Type} (c : M world A) (k : A -> M world B) :
  steps rel c -> (forall a, steps rel (k a)) -> steps rel (bind c k).
Proof.
  intros Hc Hk s. unfold bind. specialize (Hc s).
  destruct (c s) as [[a|e] s']; cbn in *; [|exact Hc].
  exact (rel_trans _ _ _ Hc (Hk a s')).
Qed.

Lemma steps_for {St I : Type} (items : list I) (body : I -> St -> M world St)
  (st : St) :
  (forall i st, steps rel (body i st)) -> steps rel (for_ items body st).
Proof.
  intros Hb. revert st. induction items as [|i items IH]; intros st; cbn.
  - apply steps_ret.
  - apply steps_bind; [apply Hb|apply IH].
Qed.

Lemma steps_for_break {St I : Type} (items : list I)
  (body : I -> St -> M world (ctl * St)) (st : St) :
  (forall i st, steps rel (body i st)) ->
  steps rel (for_break items body st).
Proof.
  intros Hb. revert st. induction items as [|i items IH]; intros st; cbn.
  - apply steps_ret.
  - apply steps_bind; [apply Hb|]. intros [[] st']; [apply steps_ret|apply IH].
Qed.
End Steps.

Lemma steps_weaken {A : Type} (rel1 rel2 : world -> world -> Prop)
  (c : M world A) :
  (forall s s', rel1 s s' -> rel2 s s') -> steps rel1 c -> steps rel2 c.
Proof. intros H Hc s. apply H, Hc. Qed.

Lemma same_heap_trans (s1 s2 s3 : world) :
  same_heap s1 s2 -> same_heap s2 s3 -> same_heap s1 s3.
Proof. unfold same_heap. congruence. Qed.

Lemma same_but_trans (l0 : loc) (s1 s2 s3 : world) :
  same_but l0 s1 s2 -> same_but l0 s2 s3 -> same_but l0 s1 s3.
Proof. intros H1 H2 l Hl. rewrite (H2 l Hl). exact (H1 l Hl). Qed.

Lemma keeps_arrays_trans (s1 s2 s3 : world) :
  keeps_arrays s1 s2 -> keeps_arrays s2 s3 -> keeps_arrays s1 s3.
Proof. intros H1 H2 l m Hl. apply H2, H1, Hl. Qed.

Lemma same_heap_keeps (s s' : world) : same_heap s s' -> keeps_arrays s s'.
Proof. intros H l m Hl. now rewrite H. Qed.

Lemma steps_write2 (l0 : loc) (i j : Z) (a : R) :
  steps (same_but l0) (write2 l0 i j a).
Proof.
  intros s l Hl. unfold write2, bind, read, lift, store.
  destruct (np_set2 _ i j a); cbn; [|reflexivity].
  now rewrite lookup_insert_ne.
Qed.

Lemma steps_solve_linear_mpc (osqp : solver) (z_opt z_bar : loc) (z0 : vector)
  (d_opt : loc) :
  steps same_heap (solve_linear_mpc osqp z_opt z_bar z0 d_opt).
Proof.
  assert (Hr : forall s, same_heap s s) by reflexivity.
  pose proof same_heap_trans as Ht.
  unfold solve_linear_mpc.
  do 3 (apply (steps_bind _ Ht); [apply (steps_read _ Hr)|intros ?]).
  apply (steps_bind _ Ht).
  { apply (steps_for _ Hr Ht). intros t acc.
    apply (steps_bind _ Ht).
    { destruct (t =? 0)%Z; [apply (steps_ret _ Hr)|].
      apply (steps_bind _ Ht); [apply (steps_lift _ Hr)|].
      intros; apply (steps_ret _ Hr). }
    intros ref.
    do 3 (apply (steps_bind _ Ht); [apply (steps_lift _ Hr)|intros ?]).
    apply (steps_ret _ Hr). }
  intros stages. apply (steps_bind _ Ht); [apply (steps_lift _ Hr)|].
  intros term. apply (steps_bind _ Ht); [intros s; reflexivity|].
  intros out. destruct (_ || _).
  - do 6 (apply (steps_bind _ Ht); [apply (steps_lift _ Hr)|intros ?]).
    apply (steps_ret _ Hr).
  - apply (steps_bind _ Ht); [intros s; reflexivity|].
    intros; apply (steps_ret _ Hr).
Qed.

Lemma steps_predict_model (z0 : vector) (a delta : option vector)
  (z_opt : loc) :
  steps keeps_arrays (predict_model z0 a delta z_opt).
Proof.
  intros s. unfold predict_model.
  rewrite (bind_ok _ _ s s (default [] (heap s !! z_opt))) by reflexivity.
  set (l0 := fresh (dom (heap s))).
  set (s1 := mk_world (<[l0 := np_scale (default [] (heap s !! z_opt)) 0.0]>
                         (heap s)) (stdout s) (solved s)).
  rewrite (bind_ok _ _ s s1 l0) by reflexivity. cbv beta.
  assert (Hfresh : heap s !! l0 = None).
  { apply not_elem_of_dom. apply is_fresh. }
  assert (Hr : forall s, same_but l0 s s) by (intros ? ? ?; reflexivity).
  pose proof (same_but_trans l0) as Ht.
  match goal with |- keeps_arrays s (snd (?c s1)) =>
    assert (Hrest : steps (same_but l0) c)
  end.
  { apply (steps_bind _ Ht).
    { apply (steps_for _ Hr Ht). intros i [].
      apply (steps_bind _ Ht); [apply (steps_lift _ Hr)|].
      intros zi. apply steps_write2. }
    intros _.
    do 4 (apply (steps_bind _ Ht); [apply (steps_lift _ Hr)|intros ?]).
    do 2 (apply (steps_bind _ Ht); [apply (steps_iter_vec _ Hr)|intros ?]).
    apply (steps_bind _ Ht); [|intros; apply (steps_ret _ Hr)].
    apply (steps_for _ Hr Ht). intros [[ai di] i] n.
    do 4 (apply (steps_bind _ Ht); [apply steps_write2|intros _]).
    apply (steps_ret _ Hr). }
  intros l m Hl.
  assert (Hne : l <> l0) by congruence.
  rewrite (Hrest s1 l Hne). cbn. now rewrite lookup_insert_ne.
Qed.

Lemma steps_mpc_iteration (osqp : solver) (z_opt : loc) (z0 : vector)
  (d_opt : loc) (i : Z) (vars : trajectories) :
  steps keeps_arrays (mpc_iteration osqp z_opt z0 d_opt i vars).
Proof.
  assert (Hr : forall s, keeps_arrays s s) by (intros ? ? ? H; exact H).
  pose proof keeps_arrays_trans as Ht.
  destruct vars as [[[[[a d] ox] oy] oyaw] ov]. unfold mpc_iteration.
  apply (steps_bind _ Ht); [apply steps_predict_model|intros z_bar].
  do 2 (apply (steps_bind _ Ht); [apply (steps_iter_vec _ Hr)|intros ?]).
  apply (steps_bind _ Ht).
  { apply (steps_weaken same_heap); [apply same_heap_keeps|].
    apply steps_solve_linear_mpc. }
  intros [[[[[a' d'] ox'] oy'] oyaw'] ov'].
  do 2 (apply (steps_bind _ Ht); [apply (steps_lift _ Hr)|intros ?]).
  destruct (Rle_dec _ _); apply (steps_ret _ Hr).
Qed.

Lemma steps_linear_mpc_control (osqp : solver) (z_opt : loc) (z0 : vector)
  (d_opt : loc) (oa0 od0 : option vector) :
  steps keeps_arrays (linear_mpc_control osqp z_opt z0 d_opt oa0 od0).
Proof.
  assert (Hr : forall s, keeps_arrays s s) by (intros ? ? ? H; exact H).
  pose proof keeps_arrays_trans as Ht.
  rewrite linear_mpc_control_seed.
  apply (steps_bind _ Ht).
  - apply (steps_for_break _ Hr Ht). intros i vars. apply steps_mpc_iteration.
  - intros [c vars]. apply (steps_bind _ Ht); [|intros; apply (steps_ret _ Hr)].
    destruct c; [apply (steps_ret _ Hr)|].
    intros s l m Hl. exact Hl.
Qed.

(** X17. [solve_linear_mpc] reads the arrays and never changes one, in any
    run and for any solver. *)
Theorem solve_is_read_only (osqp : solver) (z_opt z_bar : loc) (z0 : vector)
  (d_opt : loc) (w : world) :
  heap (snd (solve_linear_mpc osqp z_opt z_bar z0 d_opt w)) = heap w.
Proof. apply steps_solve_linear_mpc. Qed.

(** X18. [linear_mpc_control] never changes an array that exists when it is
    called, whether it returns or raises: z_opt, d_opt and every other array
    hold afterwards what they held before (the predictions are written to
    arrays allocated during the call). *)
Theorem controller_keeps_arrays (osqp : solver) (z_opt : loc) (z0 : vector)
  (d_opt : loc) (oa0 od0 : option vector) (w : world) (l : loc) (m : ndarray) :
  heap w !! l = Some m ->
  heap (snd (linear_mpc_control osqp z_opt z0 d_opt oa0 od0 w)) !! l = Some m.
Proof. intros H. now apply steps_linear_mpc_control. Qed.

Lemma controller_keeps_arrays_witness :
  heap (snd (linear_mpc_control (constant_solver INFEASIBLE) 0%nat
               [0; 0; 0; 0] 2%nat None None example_world)) !! 0%nat
  = Some (np_zeros 4 7).
Proof.
  apply (controller_keeps_arrays (constant_solver INFEASIBLE) 0%nat
           [0; 0; 0; 0] 2%nat None None example_world 0%nat (np_zeros 4 7)).
  reflexivity.
Defined.

(** ** MPCIterationController: convergence at the first iteration *)




(** ** SimulationLoop: a tick that succeeds, and the whole loop *)

Lemma py_index_last_ok {A : Type} (l : list A) :
  (0 < length l)%nat -> exists a, py_index l (-1) = Ok a.
Proof.
  intros H. unfold py_index, py_len. cbn [Z.ltb Z.compare].
  destruct (Z.ltb_spec (-1 + Z.of_nat (length l)) 0) as [?|_]; [lia|].
  destruct (lookup_lt_is_Some_2 l (Z.to_nat (-1 + Z.of_nat (length l))))
    as [a Ha]; [lia|].
  exists a. now rewrite Ha.
Qed.

Lemma main_tick_ok (osqp : solver) (sp : vector) (s : sim) :
  (forall q, good_output (osqp q)) ->
  sim_ok sp s ->
  exists ai di q s',
    main_tick osqp sp s = (Ok (ai, di), s')
    /\ sim_ok sp s'
    /\ node s' = Node.update (node s) ai di 1.0
    /\ time s' = time s + P.dt
    /\ oa s' = Some (fst (controls (osqp q)))
    /\ odelta s' = Some (snd (controls (osqp q)))
    /\ fst (controls (osqp q)) !! 0%nat = Some ai
    /\ snd (controls (osqp q)) !! 0%nat = Some di
    /\ PATH.cx (ref_path s') = PATH.cx (ref_path s)
    /\ PATH.cy (ref_path s') = PATH.cy (ref_path s)
    /\ (PATH.ind_old (ref_path s) <= PATH.ind_old (ref_path s'))%Z
    /\ exists qs,
         solved (the_world s') = solved (the_world s) ++ qs
         /\ last qs = Some q
         /\ (1 <= length qs <= Z.to_nat P.MAX_ITER)%nat.
Proof.
  intros Hgood (Hwf & Hc & Hsp & Hla & Hld).
  assert (Hdl : 0 < 1.0) by lra.
  destruct (calc_optimal_trajectory_spec (node s) (ref_path s) sp 1.0
              Hwf Hc Hsp Hdl)
    as (ind & d & z_opt & d_opt & Hnear & Hrun & Hzs & Hds & _).
  destruct (nearest_index_ok (ref_path s) (node s) Hwf Hc)
    as (ind' & d' & Hnear' & Hind).
  rewrite Hnear in Hnear'. injection Hnear' as <- <-.
  set (p' := PATH.set_ind_old (ref_path s) ind) in *.
  set (w := the_world s).
  set (l1 := fresh (dom (heap w))).
  set (w1 := mk_world (<[l1 := z_opt]> (heap w)) (stdout w) (solved w)).
  set (l2 := fresh (dom (heap w1))).
  set (w2 := mk_world (<[l2 := d_opt]> (heap w1)) (stdout w1) (solved w1)).
  assert (Hl2 : heap w1 !! l2 = None).
  { apply not_elem_of_dom. apply is_fresh. }
  assert (Hne : l1 <> l2).
  { intros He. rewrite <- He in Hl2. cbn in Hl2.
    rewrite lookup_insert_eq in Hl2. discriminate. }
  assert (H1 : heap w2 !! l1 = Some z_opt).
  { cbn. rewrite lookup_insert_ne by congruence. apply lookup_insert_eq. }
  assert (H2 : heap w2 !! l2 = Some d_opt) by (cbn; apply lookup_insert_eq).
  destruct (linear_mpc_control_spec osqp l1 (Node.x (node s)) (Node.y (node s))
              (Node.v (node s)) (Node.yaw (node s)) l2 (oa s) (odelta s) w2
              z_opt d_opt H1 Hzs H2 Hds Hla Hld Hgood)
    as (qs & q & tr & Hn & Hsolved & Hlast & Hres & Hun & _).
  cbv zeta in Hres, Hsolved.
  destruct (unpack_good (osqp q) (Hgood q))
    as (ox & oy & ov & oyaw & Hc1 & Hc2 & Hun').
  rewrite Hun in Hun'. injection Hun' as ->.
  unfold controls in Hc1, Hc2. cbn [fst snd] in Hc1, Hc2.
  set (c1 := nth 0 (u_value (osqp q)) []) in *.
  set (c2 := nth 1 (u_value (osqp q)) []) in *.
  destruct (py_index_ok c1 0) as (ai & Ei2 & Hai); [unfold py_len; lia|].
  destruct (py_index_ok c2 0) as (di & Ei1 & Hdi); [unfold py_len; lia|].
  change (Z.to_nat 0) with 0%nat in Hai, Hdi.
  destruct (linear_mpc_control osqp l1 _ l2 (oa s) (odelta s) w2)
    as [res w3] eqn:Hctl.
  cbn [fst] in Hres. subst res. cbn [snd] in Hsolved.
  exists ai, di, q.
  unfold main_tick.
  rewrite (bind_ok _ _ s s s) by reflexivity.
  erewrite bind_ok by (unfold on_path; rewrite Hrun; reflexivity).
  cbv beta iota.
  erewrite bind_ok by reflexivity.
  erewrite bind_ok by reflexivity.
  cbv beta.
  erewrite bind_ok
    by (unfold on_world; cbn [the_world node ref_path oa odelta time];
        fold w l1 w1 l2 w2; rewrite Hctl; reflexivity).
  cbv beta iota.
  erewrite bind_ok by reflexivity.
  erewrite bind_ok by reflexivity.
  erewrite bind_ok.
  2:{ erewrite bind_ok by (unfold lift; rewrite Ei1; reflexivity).
      erewrite bind_ok by reflexivity.
      erewrite bind_ok by (unfold lift; rewrite Ei2; reflexivity).
      reflexivity. }
  cbv beta iota.
  erewrite bind_ok by reflexivity.
  erewrite bind_ok by reflexivity.
  eexists. split; [reflexivity|].
  cbn [node ref_path oa odelta time the_world].
  split.
  { unfold sim_ok. cbn [ref_path oa odelta seed fst snd].
    split; [exact Hwf|]. split; [cbn; lia|]. split; [exact Hsp|].
    split; [exact Hc1|exact Hc2]. }
  split; [reflexivity|]. split; [reflexivity|]. split; [reflexivity|].
  split; [reflexivity|]. split; [exact Hai|]. split; [exact Hdi|].
  split; [reflexivity|]. split; [reflexivity|]. split; [cbn; lia|].
  exists qs. split; [exact Hsolved|]. split; [exact Hlast|exact Hn].
Qed.

(** X20. With a solver that always answers with a solution, a tick of
    [main] on a sound simulation state returns: it hands the solver between
    one and MAX_ITER problems, and the vehicle is advanced by one update
    with the first acceleration and the first steering angle of the controls
    the solver returned for the last of them, in forward gear; the clock
    advances by dt; those controls become the warm start of the next tick;
    the path cursor does not move back and the state stays sound. *)
Theorem tick_applies_first_control (osqp : solver) (sp : vector) (s : sim) :
  (forall q, good_output (osqp q)) ->
  sim_ok sp s ->
  exists ai di qs q s',
    main_tick osqp sp s = (Ok (ai, di), s')
    /\ solved (the_world s') = solved (the_world s) ++ qs
    /\ last qs = Some q
    /\ (1 <= length qs <= Z.to_nat P.MAX_ITER)%nat
    /\ sim_ok sp s'
    /\ node s' = Node.update (node s) ai di 1.0
    /\ time s' = time s + P.dt
    /\ oa s' = Some (fst (controls (osqp q)))
    /\ odelta s' = Some (snd (controls (osqp q)))
    /\ fst (controls (osqp q)) !! 0%nat = Some ai
    /\ snd (controls (osqp q)) !! 0%nat = Some di
    /\ (PATH.ind_old (ref_path s) <= PATH.ind_old (ref_path s'))%Z.
Proof.
  intros Hgood Hok.
  destruct (main_tick_ok osqp sp s Hgood Hok)
    as (ai & di & q & s' & H1 & H2 & H3 & H4 & H5 & H6 & H7 & H8 & _ & _ & H9
        & qs & Hqs & Hlast & Hn).
  exists ai, di, qs, q, s'. auto 15.
Qed.

Lemma main_loop_runs (osqp : solver) (sp : vector) :
  (forall q, good_output (osqp q)) ->
  forall (n fuel : nat) (s : sim),
    sim_ok sp s ->
    P.MAX_TIME <= time s + INR n * P.dt ->
    (n < fuel)%nat ->
    exists r s' k,
      main_loop fuel osqp sp s = (Ok (Some r), s')
      /\ (k <= n)%nat
      /\ time s' = time s + INR k * P.dt
      /\ sim_ok sp s'
      /\ match r with
         | GoalReached => at_goal s'
         | TimeUp => P.MAX_TIME <= time s'
         end.
Proof.
  intros Hgood. induction n as [|n IH]; intros fuel s Hok Htime Hfuel.
  - destruct fuel as [|fuel]; [lia|]. cbn [main_loop].
    rewrite (bind_ok _ _ s s s) by reflexivity.
    change (INR 0) with 0 in Htime. rewrite Rmult_0_l, Rplus_0_r in Htime.
    destruct (Rlt_dec (time s) P.MAX_TIME) as [Hlt|Hge]; [lra|].
    exists TimeUp, s, 0%nat. change (INR 0) with 0.
    split; [reflexivity|]. split; [lia|]. split; [lra|].
    split; [exact Hok|exact Htime].
  - destruct fuel as [|fuel]; [lia|]. cbn [main_loop].
    rewrite (bind_ok _ _ s s s) by reflexivity.
    destruct (Rlt_dec (time s) P.MAX_TIME) as [Hlt|Hge].
    2:{ exists TimeUp, s, 0%nat. change (INR 0) with 0.
        split; [reflexivity|]. split; [lia|]. split; [lra|].
        split; [exact Hok|lra]. }
    destruct (main_tick_ok osqp sp s Hgood Hok)
      as (ai & di & q & s1 & Htick & Hok1 & _ & Ht1 & _).
    rewrite (bind_ok _ _ _ _ _ Htick).
    rewrite (bind_ok _ _ s1 s1 s1) by reflexivity.
    destruct Hok1 as (Hwf1 & Hc1 & Hrest1).
    pose proof Hwf1 as (Hx1 & Hy1 & _).
    destruct (py_index_last_ok (PATH.cx (ref_path s1))) as [cxl Hcxl];
      [unfold py_len in *; lia|].
    destruct (py_index_last_ok (PATH.cy (ref_path s1))) as [cyl Hcyl];
      [unfold py_len in *; lia|].
    rewrite (bind_ok _ _ s1 s1 cxl) by (unfold lift; now rewrite Hcxl).
    rewrite (bind_ok _ _ s1 s1 cyl) by (unfold lift; now rewrite Hcyl).
    cbv beta zeta.
    assert (Hok1 : sim_ok sp s1) by (split; [|split]; assumption).
    assert (Hrec : exists r s' k,
              main_loop fuel osqp sp s1 = (Ok (Some r), s')
              /\ (k <= n)%nat
              /\ time s' = time s1 + INR k * P.dt
              /\ sim_ok sp s'
              /\ match r with
                 | GoalReached => at_goal s'
                 | TimeUp => P.MAX_TIME <= time s'
                 end).
    { apply IH; [exact Hok1| |lia]. rewrite Ht1. rewrite S_INR in Htime. lra. }
    assert (Hlift : forall (s' : sim) (k : nat),
              (k <= n)%nat -> time s' = time s1 + INR k * P.dt ->
              (S k <= S n)%nat /\ time s' = time s + INR (S k) * P.dt).
    { intros s' k Hk Ht. split; [lia|]. rewrite Ht, Ht1, S_INR. lra. }
    destruct (Rlt_dec _ P.GOAL_DIS) as [Hd|Hd].
    + destruct (Rlt_dec _ P.STOP_SPEED) as [Hv|Hv].
      * exists GoalReached, s1, 1%nat. split; [reflexivity|].
        split; [lia|]. split; [rewrite Ht1; change (INR 1) with 1; lra|].
        split; [exact Hok1|]. exists cxl, cyl. auto.
      * destruct Hrec as (r & s' & k & Hrun & Hk & Ht & Hok' & Hr).
        exists r, s', (S k). destruct (Hlift s' k Hk Ht). auto.
    + destruct Hrec as (r & s' & k & Hrun & Hk & Ht & Hok' & Hr).
      exists r, s', (S k). destruct (Hlift s' k Hk Ht). auto.
Qed.

Lemma example_sim_ok : sim_ok [1; 1; 0] example_sim.
Proof.
  split; [exact example_path_wf|]. split.
  - unfold example_sim, example_path, PATH.init, py_len.
    cbn [ref_path PATH.length PATH.ind_old length]. lia.
  - repeat split.
Qed.

Lemma tick_applies_first_control_witness :
  let osqp := constant_solver OPTIMAL in
  exists ai di qs q s',
    main_tick osqp [1; 1; 0] example_sim = (Ok (ai, di), s')
    /\ solved (the_world s') = solved (the_world example_sim) ++ qs
    /\ last qs = Some q
    /\ (1 <= length qs <= Z.to_nat P.MAX_ITER)%nat
    /\ sim_ok [1; 1; 0] s'
    /\ node s' = Node.update (node example_sim) ai di 1.0
    /\ time s' = time example_sim + P.dt
    /\ oa s' = Some (fst (controls (osqp q)))
    /\ odelta s' = Some (snd (controls (osqp q)))
    /\ fst (controls (osqp q)) !! 0%nat = Some ai
    /\ snd (controls (osqp q)) !! 0%nat = Some di
    /\ (PATH.ind_old (ref_path example_sim) <= PATH.ind_old (ref_path s'))%Z.
Proof.
  apply (tick_applies_first_control (constant_solver OPTIMAL) [1; 1; 0]
           example_sim).
  - apply good_constant_solver. reflexivity.
  - exact example_sim_ok.
Defined.

(** The clock reaches MAX_TIME after finitely many ticks. *)
Lemma enough_ticks (t : R) : exists n : nat, P.MAX_TIME <= t + INR n * P.dt.
Proof.
  set (x := (P.MAX_TIME - t) / P.dt).
  destruct (archimed x) as [Hup _].
  exists (Z.to_nat (up x)).
  assert (Hx : x <= INR (Z.to_nat (up x))).
  { rewrite INR_IZR_INZ.
    assert (up x <= Z.of_nat (Z.to_nat (up x)))%Z by lia.
    apply IZR_le in H. lra. }
  assert (Hdt : 0 < P.dt) by (unfold P.dt; lra).
  apply (Rmult_le_compat_r P.dt) in Hx; [|lra].
  unfold x in Hx at 1. unfold Rdiv in Hx.
  rewrite Rmult_assoc, Rinv_l in Hx by lra. lra.
Qed.

(** X21. With a solver that always answers with a solution, the loop of
    [main], started in a sound state, never raises and terminates: after
    some number k of ticks, which advance the clock by k * dt, it ends
    either by its break, and then the vehicle is within GOAL_DIS of the last
    path sample with |v| < STOP_SPEED, or because the clock has reached
    MAX_TIME. *)
Theorem main_loop_terminates (osqp : solver) (sp : vector) (s : sim) :
  (forall q, good_output (osqp q)) ->
  sim_ok sp s ->
  exists fuel r s' k,
    main_loop fuel osqp sp s = (Ok (Some r), s')
    /\ time s' = time s + INR k * P.dt
    /\ match r with
       | GoalReached => at_goal s'
       | TimeUp => P.MAX_TIME <= time s'
       end.
Proof.
  intros Hgood Hok.
  destruct (enough_ticks (time s)) as [n Htime].
  destruct (main_loop_runs osqp sp Hgood n (S n) s Hok Htime (Nat.lt_succ_diag_r n))
    as (r & s' & k & H1 & _ & H3 & _ & H4).
  exists (S n), r, s', k. auto.
Qed.

Lemma main_loop_terminates_witness :
  exists fuel r s' k,
    main_loop fuel (constant_solver OPTIMAL) [1; 1; 0] example_sim
    = (Ok (Some r), s')
    /\ time s' = time example_sim + INR k * P.dt
    /\ match r with
       | GoalReached => at_goal s'
       | TimeUp => P.MAX_TIME <= time s'
       end.
Proof.
  apply (main_loop_terminates (constant_solver OPTIMAL) [1; 1; 0] example_sim).
  - apply good_constant_solver. reflexivity.
  - exact example_sim_ok.
Defined.

(** X22. [main], from the spline course on and leaving the plotting aside:
    on a non-empty course with equally long arrays, and with a solver that
    always answers with a solution, it never raises and its loop terminates,
    at the goal or at MAX_TIME. *)
Theorem main_never_raises (osqp : solver) (cx cy cyaw ck : vector) :
  (forall q, good_output (osqp q)) ->
  length cy = length cx -> length cyaw = length cx ->
  (0 < length cx)%nat ->
  exists fuel r s,
    main_after_spline osqp cx cy cyaw ck fuel = Ok (Some r, s)
    /\ match r with
       | GoalReached => at_goal s
       | TimeUp => P.MAX_TIME <= time s
       end.
Proof.
  intros Hgood Hcy Hcyaw Hpos. unfold main_after_spline.
  destruct (calc_speed_profile_spec cx cy cyaw P.TARGET_SPEED Hcy Hcyaw Hpos)
    as (sp & -> & Hlen & _). cbn [bindR].
  destruct (py_index_ok cx 0) as (x0 & -> & _); [unfold py_len; lia|].
  destruct (py_index_ok cy 0) as (y0 & -> & _); [unfold py_len; lia|].
  destruct (py_index_ok cyaw 0) as (w0 & -> & _); [unfold py_len; lia|].
  cbn [bindR].
  set (p := PATH.init cx cy cyaw ck).
  set (n0 := Node.init x0 y0 w0 0.0).
  assert (Hwf : path_wf p).
  { unfold p, PATH.init, path_wf, py_len. cbn. rewrite Hcy, Hcyaw. auto. }
  assert (Hc : (0 <= PATH.ind_old p <= PATH.length p - 1)%Z).
  { unfold p, PATH.init, py_len. cbn [PATH.ind_old PATH.length]. lia. }
  destruct (nearest_index_ok p n0 Hwf Hc) as (ind & d & Hnear & Hind).
  set (s1 := mk_sim n0 (PATH.set_ind_old p ind) None None 0.0 empty_world).
  assert (Hok : sim_ok sp s1).
  { split; [exact Hwf|]. split.
    - unfold s1. cbn [ref_path PATH.set_ind_old PATH.ind_old PATH.length].
      lia.
    - split; [|split; reflexivity].
      unfold s1, py_len, p.
      cbn [ref_path PATH.set_ind_old PATH.init PATH.length].
      unfold py_len. now rewrite Hlen. }
  destruct (enough_ticks (time s1)) as [n Htime].
  destruct (main_loop_runs osqp sp Hgood n (S n) s1 Hok Htime
              (Nat.lt_succ_diag_r n))
    as (r & s' & k & Hrun & _ & _ & _ & Hr).
  exists (S n), r, s'.
  erewrite bind_ok by (unfold on_path; cbn [ref_path]; rewrite Hnear; reflexivity).
  cbn [node oa odelta time the_world]. fold s1. rewrite Hrun.
  split; [reflexivity|exact Hr].
Qed.

Lemma main_never_raises_witness :
  exists fuel r s,
    main_after_spline (constant_solver OPTIMAL) [0; 1; 2] [0; 0; 0] [0; 0; 0]
      [0; 0; 0] fuel = Ok (Some r, s)
    /\ match r with
       | GoalReached => at_goal s
       | TimeUp => P.MAX_TIME <= time s
       end.
Proof.
  apply (main_never_raises (constant_solver OPTIMAL) [0; 1; 2] [0; 0; 0]
           [0; 0; 0] [0; 0; 0]).
  - apply good_constant_solver. reflexivity.
  - reflexivity.
  - reflexivity.
  - cbn [length]. lia.
Defined.
